(** * Static analyses over building-block trees (tree_analysis.py)

    A shallow embedding of
    [tensorflow_federated/python/core/impl/tree_analysis.py] together with the
    collaborators it calls, and the properties its specification states. *)

From stdpp Require Import gmap strings list.

Local Open Scope Z_scope.

(** ** Collaborators *)

(** Modelled from the spec: [placement_literals.PlacementLiteral] (missing
    from src), the enumeration of the physical locations of a federated value:
    one per participant, or one at the coordinator. *)
Inductive PlacementLiteral : Type := CLIENTS | SERVER.

Global Instance PlacementLiteral_eq_dec : EqDecision PlacementLiteral.
Proof. solve_decision. Defined.

(** Modelled from the spec: the type annotations of [computation_types]
    (missing from src). The analyses only ask whether an annotation is a
    [FederatedType] and, if so, read its placement tag. *)
#[local] Unset Elimination Schemes.
Inductive Type_spec : Type :=
| TensorType (dtype : string)
| NamedTupleType (elements : list Type_spec)
| FunctionType (parameter result : Type_spec)
| FederatedType (member : Type_spec) (placement : PlacementLiteral).

(** Modelled from the spec: the eight variants of
    [computation_building_blocks.ComputationBuildingBlock] (missing from src),
    each carrying its (trusted) type annotation as last field. *)
Inductive ComputationBuildingBlock : Type :=
| Reference (name : string) (type_signature : Type_spec)
| Lambda (parameter_name : string) (parameter_type : Type_spec)
         (result : ComputationBuildingBlock) (type_signature : Type_spec)
| Block (locals : list (string * ComputationBuildingBlock))
        (result : ComputationBuildingBlock) (type_signature : Type_spec)
| Call (function argument : ComputationBuildingBlock) (type_signature : Type_spec)
| Selection (source : ComputationBuildingBlock) (index : nat)
            (type_signature : Type_spec)
| Tuple (elements : list ComputationBuildingBlock) (type_signature : Type_spec)
| Data (uri : string) (type_signature : Type_spec)
| Intrinsic (uri : string) (type_signature : Type_spec).
#[local] Set Elimination Schemes.

(** Structural induction that reaches the nodes held in a Tuple's elements
    and in a Block's locals. *)
Section building_block_ind.
Variable P : ComputationBuildingBlock → Prop.
Hypothesis HReference : ∀ name ty, P (Reference name ty).
Hypothesis HLambda : ∀ name pty result ty, P result → P (Lambda name pty result ty).
Hypothesis HBlock : ∀ locals result ty,
    Forall (λ kv, P kv.2) locals → P result → P (Block locals result ty).
Hypothesis HCall : ∀ fn arg ty, P fn → P arg → P (Call fn arg ty).
Hypothesis HSelection : ∀ source index ty, P source → P (Selection source index ty).
Hypothesis HTuple : ∀ elements ty, Forall P elements → P (Tuple elements ty).
Hypothesis HData : ∀ uri ty, P (Data uri ty).
Hypothesis HIntrinsic : ∀ uri ty, P (Intrinsic uri ty).

Fixpoint building_block_ind (comp : ComputationBuildingBlock) : P comp :=
  match comp with
  | Reference name ty => HReference name ty
  | Lambda name pty result ty =>
      HLambda name pty result ty (building_block_ind result)
  | Block locals result ty =>
      HBlock locals result ty
        ((fix go (l : list (string * ComputationBuildingBlock))
            : Forall (λ kv, P kv.2) l :=
            match l with
            | [] => List.Forall_nil _
            | kv :: l => List.Forall_cons _ kv l (building_block_ind kv.2) (go l)
            end) locals)
        (building_block_ind result)
  | Call fn arg ty =>
      HCall fn arg ty (building_block_ind fn) (building_block_ind arg)
  | Selection source index ty =>
      HSelection source index ty (building_block_ind source)
  | Tuple elements ty =>
      HTuple elements ty
        ((fix go (l : list ComputationBuildingBlock) : Forall P l :=
            match l with
            | [] => List.Forall_nil _
            | c :: l => List.Forall_cons _ c l (building_block_ind c) (go l)
            end) elements)
  | Data uri ty => HData uri ty
  | Intrinsic uri ty => HIntrinsic uri ty
  end.
End building_block_ind.

Definition type_signature_of (comp : ComputationBuildingBlock) : Type_spec :=
  match comp with
  | Reference _ t | Lambda _ _ _ t | Block _ _ t | Call _ _ t
  | Selection _ _ t | Tuple _ t | Data _ t | Intrinsic _ t => t
  end.

(** Modelled from the spec: the Python classes of the variants (missing from
    src), against which a building block can be tested. *)
Inductive pyclass : Type :=
| cls_ComputationBuildingBlock
| cls_Reference | cls_Lambda | cls_Block | cls_Call
| cls_Selection | cls_Tuple | cls_Data | cls_Intrinsic
| cls_PlacementLiteral.

Global Instance pyclass_eq_dec : EqDecision pyclass.
Proof. solve_decision. Defined.

Definition class_of (comp : ComputationBuildingBlock) : pyclass :=
  match comp with
  | Reference _ _ => cls_Reference
  | Lambda _ _ _ _ => cls_Lambda
  | Block _ _ _ => cls_Block
  | Call _ _ _ => cls_Call
  | Selection _ _ _ => cls_Selection
  | Tuple _ _ => cls_Tuple
  | Data _ _ => cls_Data
  | Intrinsic _ _ => cls_Intrinsic
  end.

(** [isinstance(comp, cls)] for a building block [comp]. *)
Definition instance_of (comp : ComputationBuildingBlock) (cls : pyclass) : bool :=
  bool_decide (cls = cls_ComputationBuildingBlock)
  || bool_decide (cls = class_of comp).

(** ** Exceptions and results *)

Inductive exn : Type :=
| TypeError
| ValueError (msg : string).

Inductive res (A : Type) : Type :=
| Ok (a : A)
| Raise (e : exn).
Arguments Ok {A} a.
Arguments Raise {A} e.

(** ** Python values handed to the entry points

    The entry points are Python functions: any value can reach them. *)
Inductive pyobj : Type :=
| PyNone
| PyInt (n : Z)
| PyComp (comp : ComputationBuildingBlock)
| PyPlacement (p : PlacementLiteral)
| PyClass (cls : pyclass)
| PyClasses (clss : list pyclass)
| PyFunction (f : ComputationBuildingBlock → res bool).

(** Calling a Python value on a building block and taking the truth value of
    what it returns: only functions are callable. *)
Definition py_call (f : pyobj) (comp : ComputationBuildingBlock) : res bool :=
  match f with
  | PyFunction g => g comp
  | _ => Raise TypeError
  end.

(** [isinstance(comp, types)]: [types] is a class or a tuple of classes. *)
Definition isinstance (comp : ComputationBuildingBlock) (types : pyobj) : res bool :=
  match types with
  | PyClass cls => Ok (instance_of comp cls)
  | PyClasses clss => Ok (existsb (instance_of comp) clss)
  | _ => Raise TypeError
  end.

(** A total predicate as a Python function value. *)
Definition py_predicate (p : ComputationBuildingBlock → bool) : pyobj :=
  PyFunction (λ comp, Ok (p comp)).

(** ** The trace-threading exception monad

    A computation either returns or raises, and records (ghost state) what
    the traversal engine has done so far: the nodes it has handed to a
    visitor, and the nodes that were made during the call (a node a visitor
    substituted for the one it was given, or a parent the engine built around
    a substituted child). Building blocks have no mutators: making new nodes
    is the only way a call can leave its caller with another tree. *)
Record world : Type := World {
  visited : list ComputationBuildingBlock;
  created : list ComputationBuildingBlock
}.

Definition T (A : Type) : Type := world → res A * world.

Definition T_ret {A} (a : A) : T A := λ tr, (Ok a, tr).

Definition T_bind {A B} (m : T A) (k : A → T B) : T B :=
  λ tr, match m tr with
        | (Ok a, tr') => k a tr'
        | (Raise e, tr') => (Raise e, tr')
        end.

Definition T_raise {A} (e : exn) : T A := λ tr, (Raise e, tr).

Global Instance T_mret : MRet T := @T_ret.
Global Instance T_mbind : MBind T := λ A B k m, T_bind m k.

(** Running an entry point from an empty trace: its outcome and the nodes
    handed to a visitor. *)
Definition run {A} (m : T A) : res A * list ComputationBuildingBlock :=
  let '(r, w) := m (World [] []) in (r, visited w).

(** A computation that makes no node. *)
Definition creates_nothing {A} (m : T A) : Prop :=
  ∀ w, created (m w).2 = created w.

(** Modelled from the spec: [py_typecheck.check_type] (missing from src) at the
    two classes the library checks against; an argument of the wrong kind
    raises the invalid-argument error. *)
Module py_typecheck.

Definition check_type_ComputationBuildingBlock (target : pyobj)
  : T ComputationBuildingBlock :=
  match target with
  | PyComp comp => T_ret comp
  | _ => T_raise TypeError
  end.

Definition check_type_PlacementLiteral (target : pyobj) : T PlacementLiteral :=
  match target with
  | PyPlacement p => T_ret p
  | _ => T_raise TypeError
  end.

Definition check_callable (target : pyobj) : T pyobj :=
  match target with
  | PyFunction _ => T_ret target
  | _ => T_raise TypeError
  end.

End py_typecheck.

(** ** The traversal engine *)

Module transformation_utils.

Section Engine.
Context {S : Type}.

(** Modelled from the spec: the visitor handed to the traversal engine
    (missing from src). A visitor is a Python closure: it receives a node,
    may update the cell it captured, and returns [(comp, modified)] or
    raises. *)
Definition visitor : Type :=
  ComputationBuildingBlock → S → res (ComputationBuildingBlock * bool * S).

Variable transform : visitor.

(** Modelled from the spec: node substitution in the engine (missing from
    src): a parent is rebuilt, as a new node, only when a child was
    substituted. *)
Definition rebuilt (modified : bool) (new old : ComputationBuildingBlock)
  : T ComputationBuildingBlock :=
  λ w, if modified
       then (Ok new, World (visited w) (created w ++ [new]))
       else (Ok old, w).

(** Modelled from the spec: one visit of the engine (missing from src): the
    node is handed to the visitor and recorded in the trace; a substitute the
    visitor returns is a node made during the call. *)
Definition visit (comp : ComputationBuildingBlock) (s : S)
  : T (ComputationBuildingBlock * bool * S) :=
  λ w, match transform comp s with
       | Ok (comp', modified, s') =>
           (Ok (comp', modified, s'),
            World (visited w ++ [comp])
                  (if modified then created w ++ [comp'] else created w))
       | Raise e => (Raise e, World (visited w ++ [comp]) (created w))
       end.

(** Modelled from the spec: the loops of the engine (missing from src) over
    a Tuple's elements and over a Block's locals: each value is transformed
    in turn, left to right. *)
Definition transform_elements
    (transform_postorder : ComputationBuildingBlock → S
                           → T (ComputationBuildingBlock * bool * S))
  : list ComputationBuildingBlock → S
    → T (list ComputationBuildingBlock * bool * S) :=
  fix go l s :=
    match l with
    | [] => T_ret ([], false, s)
    | value :: l =>
        '(value', value_modified, s) ← transform_postorder value s;
        '(l', l_modified, s) ← go l s;
        T_ret (value' :: l', value_modified || l_modified, s)
    end.

Definition transform_locals
    (transform_postorder : ComputationBuildingBlock → S
                           → T (ComputationBuildingBlock * bool * S))
  : list (string * ComputationBuildingBlock) → S
    → T (list (string * ComputationBuildingBlock) * bool * S) :=
  fix go l s :=
    match l with
    | [] => T_ret ([], false, s)
    | (key, value) :: l =>
        '(value', value_modified, s) ← transform_postorder value s;
        '(l', l_modified, s) ← go l s;
        T_ret ((key, value') :: l', value_modified || l_modified, s)
    end.

(** Modelled from the spec: [transformation_utils.transform_postorder]
    (missing from src): every node is handed to the visitor once,
    children before their parent, siblings left to right (a Block's
    locals in declaration order, then its result; a Call's function, then
    its argument); a parent whose child was substituted is rebuilt around
    the new child before it is visited. *)
Fixpoint transform_postorder (comp : ComputationBuildingBlock) (s : S)
  : T (ComputationBuildingBlock * bool * S) :=
  match comp with
  | Reference _ _ | Data _ _ | Intrinsic _ _ => visit comp s
  | Selection source index ty =>
      '(source', source_modified, s) ← transform_postorder source s;
      comp ← rebuilt (source_modified) (Selection source' index ty) comp;
      '(comp, comp_modified, s) ← visit comp s;
      T_ret (comp, comp_modified || source_modified, s)
  | Tuple elements ty =>
      '(elements', elements_modified, s) ←
        transform_elements transform_postorder elements s;
      comp ← rebuilt (elements_modified) (Tuple elements' ty) comp;
      '(comp, comp_modified, s) ← visit comp s;
      T_ret (comp, comp_modified || elements_modified, s)
  | Call fn arg ty =>
      '(fn', fn_modified, s) ← transform_postorder fn s;
      '(arg', arg_modified, s) ← transform_postorder arg s;
      comp ← rebuilt (fn_modified || arg_modified) (Call fn' arg' ty) comp;
      '(comp, comp_modified, s) ← visit comp s;
      T_ret (comp, comp_modified || (fn_modified || arg_modified), s)
  | Lambda name pty result ty =>
      '(result', result_modified, s) ← transform_postorder result s;
      comp ← rebuilt (result_modified) (Lambda name pty result' ty) comp;
      '(comp, comp_modified, s) ← visit comp s;
      T_ret (comp, comp_modified || result_modified, s)
  | Block locals result ty =>
      '(variables, variables_modified, s) ←
        transform_locals transform_postorder locals s;
      '(result', result_modified, s) ← transform_postorder result s;
      comp ← rebuilt (variables_modified || result_modified) (Block variables result' ty) comp;
      '(comp, comp_modified, s) ← visit comp s;
      T_ret (comp, comp_modified || (variables_modified || result_modified), s)
  end.

End Engine.
Arguments visitor S : clear implicits.

(** Modelled from the spec: binding one more name in the oracle below
    (missing from src): the names seen so far, and whether all were new. *)
Definition bind_name (st : gset string * bool) (name : string) : gset string * bool :=
  ({[ name ]} ∪ st.1, st.2 && bool_decide (name ∉ st.1)).

(** Modelled from the spec: the visitor of the name-uniqueness oracle (missing
    from src): every Lambda parameter and every Block local is a bound name;
    the node is handed back. *)
Definition _transform : visitor (gset string * bool) :=
  λ comp st,
    match comp with
    | Lambda name _ _ _ => Ok (comp, false, bind_name st name)
    | Block locals _ _ => Ok (comp, false, foldl bind_name st locals.*1)
    | _ => Ok (comp, false, st)
    end.

(** Modelled from the spec: [transformation_utils.has_unique_names] (missing
    from src), the oracle that tells whether every bound name is unique
    across the entire tree, not merely within its own scope. *)
Definition has_unique_names (comp : pyobj) : T bool :=
  comp ← py_typecheck.check_type_ComputationBuildingBlock comp;
  '(_, _, (_, unique)) ← transform_postorder _transform comp (∅, true);
  mret unique.

End transformation_utils.

(** ** The postorder sequence of a tree *)

Fixpoint postorder (comp : ComputationBuildingBlock) : list ComputationBuildingBlock :=
  match comp with
  | Reference _ _ | Data _ _ | Intrinsic _ _ => [comp]
  | Lambda _ _ result _ => postorder result ++ [comp]
  | Block locals result _ =>
      flat_map (λ '(_, value), postorder value) locals ++ postorder result ++ [comp]
  | Call fn arg _ => postorder fn ++ postorder arg ++ [comp]
  | Selection source _ _ => postorder source ++ [comp]
  | Tuple elements _ => flat_map postorder elements ++ [comp]
  end.

(** Modelled from the spec: the operator identifiers of [intrinsic_defs]
    (missing from src). The spec names "federated_map" (whitelisted) and
    "federated_mean" (not whitelisted); the other identifiers are the source's
    constant names in lower case. *)
Module intrinsic_defs.
Definition FEDERATED_AGGREGATE_uri : string := "federated_aggregate".
Definition FEDERATED_APPLY_uri : string := "federated_apply".
Definition FEDERATED_BROADCAST_uri : string := "federated_broadcast".
Definition FEDERATED_MAP_uri : string := "federated_map".
Definition FEDERATED_MAP_ALL_EQUAL_uri : string := "federated_map_all_equal".
Definition FEDERATED_MEAN_uri : string := "federated_mean".
Definition FEDERATED_VALUE_AT_CLIENTS_uri : string := "federated_value_at_clients".
Definition FEDERATED_VALUE_AT_SERVER_uri : string := "federated_value_at_server".
Definition FEDERATED_ZIP_AT_SERVER_uri : string := "federated_zip_at_server".
Definition FEDERATED_ZIP_AT_CLIENTS_uri : string := "federated_zip_at_clients".
End intrinsic_defs.

(** ** tree_analysis.py *)

Module tree_analysis.
Import transformation_utils.

Section Analyses.
(** The collaborators whose code is not part of this module: the compact
    renderer of a node, the rendering of a placement inside a message,
    and the global name-uniqueness oracle. *)
Context (compact_representation : ComputationBuildingBlock → string)
        (placement_str : PlacementLiteral → string)
        (has_unique_names : pyobj → T bool).

(** The closure [_function] of [count]; the captured cell is [counter[0]]. *)
Definition _function (predicate : pyobj) : visitor Z :=
  λ comp counter,
    match (match predicate with
           | PyNone => Ok true
           | _ => py_call predicate comp
           end) with
    | Ok true => Ok (comp, false, counter + 1)
    | Ok false => Ok (comp, false, counter)
    | Raise e => Raise e
    end.

(** [count(comp, predicate=None)]: the number of nodes matching [predicate]. *)
Definition count (comp predicate : pyobj) : T Z :=
  comp ← py_typecheck.check_type_ComputationBuildingBlock comp;
  let counter := 0 in
  '(_, _, counter) ← transform_postorder (_function predicate) comp counter;
  mret counter.

(** [count_types(comp, types)]. *)
Definition count_types (comp types : pyobj) : T Z :=
  count comp (PyFunction (λ x, isinstance x types)).

Definition _check_single_placement (single_placement : PlacementLiteral)
  : visitor unit :=
  λ comp s,
    match type_signature_of comp with
    | FederatedType _ placement =>
        if bool_decide (placement ≠ single_placement)
        then Raise (ValueError
               ("Comp contains a placement other than "
                +:+ placement_str single_placement
                +:+ "; placement " +:+ placement_str placement
                +:+ " on comp " +:+ compact_representation comp
                +:+ " inside the structure. "))
        else Ok (comp, false, s)
    | _ => Ok (comp, false, s)
    end.

Definition check_has_single_placement (comp single_placement : pyobj) : T unit :=
  comp ← py_typecheck.check_type_ComputationBuildingBlock comp;
  single_placement ← py_typecheck.check_type_PlacementLiteral single_placement;
  _ ← transform_postorder (_check_single_placement single_placement) comp ();
  mret ().

Definition uri_whitelist : list string :=
  [ intrinsic_defs.FEDERATED_AGGREGATE_uri;
    intrinsic_defs.FEDERATED_APPLY_uri;
    intrinsic_defs.FEDERATED_BROADCAST_uri;
    intrinsic_defs.FEDERATED_MAP_uri;
    intrinsic_defs.FEDERATED_MAP_ALL_EQUAL_uri;
    intrinsic_defs.FEDERATED_VALUE_AT_CLIENTS_uri;
    intrinsic_defs.FEDERATED_VALUE_AT_SERVER_uri;
    intrinsic_defs.FEDERATED_ZIP_AT_SERVER_uri;
    intrinsic_defs.FEDERATED_ZIP_AT_CLIENTS_uri ].

Definition _check_whitelisted : visitor unit :=
  λ comp s,
    match comp with
    | Intrinsic uri _ =>
        if bool_decide (uri ∉ uri_whitelist)
        then Raise (ValueError
               ("Encountered an Intrinsic not currently reducible to aggregate or "
                +:+ "broadcast, the intrinsic " +:+ compact_representation comp))
        else Ok (comp, false, s)
    | _ => Ok (comp, false, s)
    end.

Definition check_intrinsics_whitelisted_for_reduction (comp : pyobj) : T unit :=
  comp ← py_typecheck.check_type_ComputationBuildingBlock comp;
  _ ← transform_postorder _check_whitelisted comp ();
  mret ().

Definition check_has_unique_names (comp : pyobj) : T unit :=
  unique ← has_unique_names comp;
  if negb unique
  then T_raise (ValueError
         ("This transform should only be called after we have uniquified all "
          +:+ "`computation_building_blocks.Reference` names, since we may be moving "
          +:+ "computations with unbound references under constructs which bind "
          +:+ "those references."))
  else mret ().

End Analyses.
End tree_analysis.

(** ** Node identities *)

(** Modelled from the spec: node identity (the node objects are missing from
    src). A result set holds node identities, not structural values: the same
    structure can occur at two places of a tree with different dependency
    status. A node of a tree is identified by its position: the child indices
    followed from the root. *)
Definition path : Type := list nat.

Definition children (comp : ComputationBuildingBlock) : list ComputationBuildingBlock :=
  match comp with
  | Reference _ _ | Data _ _ | Intrinsic _ _ => []
  | Lambda _ _ result _ => [result]
  | Block locals result _ => locals.*2 ++ [result]
  | Call fn arg _ => [fn; arg]
  | Selection source _ _ => [source]
  | Tuple elements _ => elements
  end.

Fixpoint node_at (p : path) (comp : ComputationBuildingBlock)
  : option ComputationBuildingBlock :=
  match p with
  | [] => Some comp
  | i :: p => children comp !! i ≫= node_at p
  end.

(** The identities of the nodes of the [i]-th child, seen from the parent. *)
Definition under (i : nat) (X : gset path) : gset path := set_map (cons i) X.

(** ** The dependency propagation engine and the ordering check

    Modelled from the spec: [extract_nodes_dependent_on_predicate] and
    [is_broadcast_dependent_on_aggregate] (missing from src: only their tests
    are there). *)
Module dependence.

Section Propagation.
Variable predicate : ComputationBuildingBlock → bool.

(** Modelled from the spec: the per-node rule of the propagation (missing
    from src). The status of a node and the dependent set of its subtree,
    from the statuses of its children: a node matching the predicate is
    dependent whatever its kind. *)
Definition node_status (comp : ComputationBuildingBlock)
    (from_children : bool) (below : gset path) : bool * gset path :=
  let status := predicate comp || from_children in
  (status, (if status then {[ [] ]} else ∅) ∪ below).

(** Modelled from the spec: the Tuple rule (missing from src). A Tuple's
    elements, from index [i] on: all are evaluated in the Tuple's own scope. *)
Definition propagate_elements
    (propagate : ComputationBuildingBlock → bool * gset path)
  : list ComputationBuildingBlock → nat → bool * gset path :=
  fix go l i :=
    match l with
    | [] => (false, ∅)
    | value :: l =>
        let '(bv, Xv) := propagate value in
        let '(bl, Xl) := go l (S i) in
        (bv || bl, under i Xv ∪ Xl)
    end.

(** Modelled from the spec: the Block rule (missing from src). A Block's
    locals, from index [i] on, strictly in order: each value is
    evaluated in the scope built from the locals before it, then its name
    is bound to its status for the locals after it and for the result. *)
Definition propagate_locals
    (propagate : gmap string bool → ComputationBuildingBlock → bool * gset path)
  : list (string * ComputationBuildingBlock) → gmap string bool → nat
    → gmap string bool * bool * gset path :=
  fix go l scope i :=
    match l with
    | [] => (scope, false, ∅)
    | (name, value) :: l =>
        let '(bv, Xv) := propagate scope value in
        let '(scope', bl, Xl) := go l (<[name := bv]> scope) (S i) in
        (scope', bv || bl, under i Xv ∪ Xl)
    end.

(** Modelled from the spec: the propagation algorithm of
    [extract_nodes_dependent_on_predicate] (missing from src): one postorder
    pass with a scope environment mapping each bound name to a dependency
    boolean; an inner binding shadows an outer one for its scope. A Reference
    takes the status of its nearest binding (unbound: not dependent); a Lambda
    binds its parameter to "not dependent" and takes the status of its body;
    Call, Tuple and Selection are dependent when a child is; leaves only when
    they match the predicate. *)
Fixpoint propagate (scope : gmap string bool) (comp : ComputationBuildingBlock)
  : bool * gset path :=
  match comp with
  | Reference name _ =>
      node_status comp (default false (scope !! name)) ∅
  | Data _ _ | Intrinsic _ _ =>
      node_status comp false ∅
  | Lambda name _ body _ =>
      let '(b, X) := propagate (<[name := false]> scope) body in
      node_status comp b (under 0 X)
  | Block locals result _ =>
      let '(scope', b, X) :=
        propagate_locals propagate locals scope 0%nat in
      let '(br, Xr) := propagate scope' result in
      node_status comp (b || br) (X ∪ under (length locals) Xr)
  | Call fn arg _ =>
      let '(bf, Xf) := propagate scope fn in
      let '(ba, Xa) := propagate scope arg in
      node_status comp (bf || ba) (under 0 Xf ∪ under 1 Xa)
  | Selection source _ _ =>
      let '(b, X) := propagate scope source in
      node_status comp b (under 0 X)
  | Tuple elements _ =>
      let '(b, X) :=
        propagate_elements (propagate scope) elements 0%nat in
      node_status comp b X
  end.

Definition dependent_nodes (tree : ComputationBuildingBlock) : gset path :=
  (propagate ∅ tree).2.
End Propagation.

(** Modelled from the spec: the visitor of the dependency pass (missing from
    src). It consults the Python predicate on the node it is given and hands
    the node back; an exception of the predicate leaves the pass. *)
Definition _consult (predicate : pyobj) : transformation_utils.visitor unit :=
  λ comp s,
    match py_call predicate comp with
    | Ok _ => Ok (comp, false, s)
    | Raise e => Raise e
    end.

(** The truth value the Python predicate returns on a node. *)
Definition truth (predicate : pyobj) : ComputationBuildingBlock → bool :=
  λ comp, match py_call predicate comp with Ok b => b | Raise _ => false end.

(** Modelled from the spec: [extract_nodes_dependent_on_predicate] (missing
    from src; its tests pin the two argument checks): the set of the
    identities of every node whose status is true. *)
Definition extract_nodes_dependent_on_predicate (tree predicate : pyobj)
  : T (gset path) :=
  tree ← py_typecheck.check_type_ComputationBuildingBlock tree;
  predicate ← py_typecheck.check_callable predicate;
  _ ← transformation_utils.transform_postorder (_consult predicate) tree ();
  mret (dependent_nodes (truth predicate) tree).

(** Modelled from the spec: "this node is a call to the aggregation
    (broadcast) operator": a Call whose function is the named Intrinsic. *)
Definition is_called_intrinsic (uri : string) (comp : ComputationBuildingBlock) : bool :=
  match comp with
  | Call (Intrinsic u _) _ _ => bool_decide (u = uri)
  | _ => false
  end.

Definition aggregate_predicate : ComputationBuildingBlock → bool :=
  is_called_intrinsic intrinsic_defs.FEDERATED_AGGREGATE_uri.

Definition broadcast_predicate : ComputationBuildingBlock → bool :=
  is_called_intrinsic intrinsic_defs.FEDERATED_BROADCAST_uri.

Definition is_broadcast_at (tree : ComputationBuildingBlock) (p : path) : bool :=
  from_option broadcast_predicate false (node_at p tree).

(** Modelled from the spec: [is_broadcast_dependent_on_aggregate] (missing
    from src). The propagation is run with the predicate "this node is a call
    to the aggregation operator". The set returned next to the boolean holds
    the broadcast calls found dependent (on broadcast(aggregate(...)) the spec
    and the test fix its size at one, while the aggregate call itself is
    dependent too). *)
Definition is_broadcast_dependent_on_aggregate (tree : pyobj)
  : T (bool * gset path) :=
  tree ← py_typecheck.check_type_ComputationBuildingBlock tree;
  dependent ← extract_nodes_dependent_on_predicate
                (PyComp tree) (py_predicate aggregate_predicate);
  let examples : gset path := filter (λ p, is_broadcast_at tree p = true) dependent in
  mret (bool_decide (examples ≠ ∅), examples).

End dependence.

(** ** The contract of the traversal engine, as definitions *)

Section Contract.
Import transformation_utils.
Context {S : Type} (transform : visitor S).

(** Handing the nodes of a list to the visitor, one after the other, until
    one visit raises. *)
Fixpoint visit_all (l : list ComputationBuildingBlock) (s : S)
    (tr : list ComputationBuildingBlock) : res S * list ComputationBuildingBlock :=
  match l with
  | [] => (Ok s, tr)
  | comp :: l =>
      match transform comp s with
      | Ok (_, _, s') => visit_all l s' (tr ++ [comp])
      | Raise e => (Raise e, tr ++ [comp])
      end
  end.

(** A visitor that only reads: it returns the node it was given and asks
    for no substitution. *)
Definition read_only : Prop :=
  ∀ comp s, match transform comp s with
            | Ok (comp', modified, _) => comp' = comp ∧ modified = false
            | Raise _ => True
            end.

(** The outcome of a traversal that handed back the tree it was given and
    made no node. *)
Definition finish (comp : ComputationBuildingBlock)
    (made : list ComputationBuildingBlock)
    (r : res S * list ComputationBuildingBlock)
  : res (ComputationBuildingBlock * bool * S) * world :=
  match r with
  | (Ok s, tr) => (Ok (comp, false, s), World tr made)
  | (Raise e, tr) => (Raise e, World tr made)
  end.
End Contract.

(** The number of nodes of a list satisfying a predicate, as a Python integer. *)
Definition matching (p : ComputationBuildingBlock → bool)
    (l : list ComputationBuildingBlock) : Z :=
  Z.of_nat (length (filter (λ comp, p comp = true) l)).

(** ** Definitions used by the statements *)

(** A node whose annotation is a federated type placed elsewhere than
    [required]. *)
Definition has_other_placement (required : PlacementLiteral)
    (comp : ComputationBuildingBlock) : bool :=
  match type_signature_of comp with
  | FederatedType _ placement => bool_decide (placement ≠ required)
  | _ => false
  end.

(** An Intrinsic node whose operator identifier is not in the whitelist. *)
Definition not_whitelisted (comp : ComputationBuildingBlock) : bool :=
  match comp with
  | Intrinsic uri _ => bool_decide (uri ∉ tree_analysis.uri_whitelist)
  | _ => false
  end.

(** The exceptions the two checkers raise on a rejected node. *)
Definition placement_error
    (compact_representation : ComputationBuildingBlock → string)
    (placement_str : PlacementLiteral → string)
    (required : PlacementLiteral) (comp : ComputationBuildingBlock) : exn :=
  ValueError ("Comp contains a placement other than "
              +:+ placement_str required
              +:+ "; placement "
              +:+ placement_str
                    (match type_signature_of comp with
                     | FederatedType _ placement => placement
                     | _ => required
                     end)
              +:+ " on comp " +:+ compact_representation comp
              +:+ " inside the structure. ").

Definition whitelist_error
    (compact_representation : ComputationBuildingBlock → string)
    (comp : ComputationBuildingBlock) : exn :=
  ValueError ("Encountered an Intrinsic not currently reducible to aggregate or "
              +:+ "broadcast, the intrinsic " +:+ compact_representation comp).

(** A scope in which no name is bound to a dependent value. *)
Definition all_false (scope : gmap string bool) : Prop :=
  ∀ name, scope !! name ≠ Some true.

(** The predicate "identifier == uri" on operators. *)
Definition has_identifier (uri : string) (comp : ComputationBuildingBlock) : bool :=
  match comp with
  | Intrinsic u _ => bool_decide (u = uri)
  | _ => false
  end.

Definition int32 : Type_spec := TensorType "int32".
Definition float32 : Type_spec := TensorType "float32".

(** The fixtures of [NodesDependentOnPredicateTest] in the test file. *)
Definition dummy_intrinsic_predicate : ComputationBuildingBlock → bool :=
  has_identifier "dummy_intrinsic".
Definition dummy_intrinsic : ComputationBuildingBlock :=
  Intrinsic "dummy_intrinsic" int32.
Definition integer_reference : ComputationBuildingBlock :=
  Reference "int" int32.

(** A visitor that substitutes a fresh Data leaf for every Data leaf. *)
Definition renaming_visitor : transformation_utils.visitor unit :=
  λ comp s,
    match comp with
    | Data _ ty => Ok (Data "renamed" ty, true, s)
    | _ => Ok (comp, false, s)
    end.

(** The traversal handed back the tree it was given, with no substitution. *)
Definition unchanged {S : Type} (tree : ComputationBuildingBlock)
    (r : res (ComputationBuildingBlock * bool * S) * world)
  : Prop :=
  match r.1 with
  | Ok (comp, modified, _) => comp = tree ∧ modified = false
  | Raise _ => True
  end.

(** Modelled from the spec: the constructors of the two called operators
    ([computation_constructing_utils], missing from src), in the shapes the
    spec names: broadcast(value) and aggregate(value, zero, accumulate, merge,
    report). *)
Module computation_constructing_utils.
Definition member_of (ty : Type_spec) : Type_spec :=
  match ty with FederatedType member _ => member | _ => ty end.

Definition result_of (ty : Type_spec) : Type_spec :=
  match ty with FunctionType _ result => result | _ => ty end.

Definition create_federated_broadcast (value : ComputationBuildingBlock)
  : ComputationBuildingBlock :=
  let result_type := FederatedType (member_of (type_signature_of value)) CLIENTS in
  Call (Intrinsic intrinsic_defs.FEDERATED_BROADCAST_uri
          (FunctionType (type_signature_of value) result_type))
       value result_type.

Definition create_federated_aggregate
    (value zero accumulate merge report : ComputationBuildingBlock)
  : ComputationBuildingBlock :=
  let args := [value; zero; accumulate; merge; report] in
  let args_type := NamedTupleType (type_signature_of <$> args) in
  let result_type :=
    FederatedType (result_of (type_signature_of report)) SERVER in
  Call (Intrinsic intrinsic_defs.FEDERATED_AGGREGATE_uri
          (FunctionType args_type result_type))
       (Tuple args args_type) result_type.
End computation_constructing_utils.

(** Modelled from the spec: the trees of the two tests of
    [BroadcastDependentOnAggregateTest] (the helpers of
    [computation_test_utils] are missing from src): broadcast(aggregate(...))
    and aggregate(broadcast(...), ...). *)
Module computation_test_utils.
Import computation_constructing_utils.

Definition dummy_lambda (parameter_name : string) (parameter_type result_type : Type_spec)
  : ComputationBuildingBlock :=
  Lambda parameter_name parameter_type (Data "data" result_type)
         (FunctionType parameter_type result_type).

Definition create_dummy_called_federated_aggregate
    (accumulate_parameter_name merge_parameter_name report_parameter_name : string)
  : ComputationBuildingBlock :=
  create_federated_aggregate
    (Data "data" (FederatedType int32 CLIENTS))
    (Data "data" float32)
    (dummy_lambda accumulate_parameter_name (NamedTupleType [float32; int32]) float32)
    (dummy_lambda merge_parameter_name (NamedTupleType [float32; float32]) float32)
    (dummy_lambda report_parameter_name float32 (TensorType "bool")).

Definition create_dummy_called_federated_broadcast : ComputationBuildingBlock :=
  create_federated_broadcast (Data "data" (FederatedType int32 SERVER)).

Definition broadcasted_aggregate : ComputationBuildingBlock :=
  create_federated_broadcast
    (create_dummy_called_federated_aggregate
       "accumulate_parameter" "merge_parameter" "report_parameter").

Definition aggregate_dependent_on_broadcast : ComputationBuildingBlock :=
  create_federated_aggregate
    create_dummy_called_federated_broadcast
    (Data "zero" int32)
    (dummy_lambda "accumulate_parameter" (NamedTupleType [int32; int32]) int32)
    (dummy_lambda "merge_parameter" (NamedTupleType [int32; int32]) int32)
    (dummy_lambda "report_parameter" int32 int32).
End computation_test_utils.

(** The broadcast calls of a tree that are found dependent on an aggregate
    call: the set [is_broadcast_dependent_on_aggregate] returns. *)
Definition dependent_broadcasts (tree : ComputationBuildingBlock) : gset path :=
  filter (λ p, dependence.is_broadcast_at tree p = true)
         (dependence.dependent_nodes dependence.aggregate_predicate tree).

(** Whether a tree, taken on its own, depends on an aggregate call. *)
Definition depends_on_aggregate (tree : ComputationBuildingBlock) : bool :=
  (dependence.propagate dependence.aggregate_predicate ∅ tree).1.

(** Whether a call of a Python predicate raised. *)
Definition raises {A : Type} (r : res A) : bool :=
  match r with Ok _ => false | Raise _ => true end.

(** The sum of a list of Python integers. *)
Definition total (ns : list Z) : Z := foldr Z.add 0 ns.

(** ** Engine facts *)

Lemma T_bind_ret {A B} (a : A) (k : A → T B) (w : world) :
  (T_ret a ≫= k) w = k a w.
Proof. done. Qed.

Section EngineFacts.
Import transformation_utils.
Context {S : Type} (transform : visitor S).

Lemma visit_all_app l1 l2 s tr :
  visit_all transform (l1 ++ l2) s tr =
  match visit_all transform l1 s tr with
  | (Ok s', tr') => visit_all transform l2 s' tr'
  | (Raise e, tr') => (Raise e, tr')
  end.
Proof.
  revert s tr. induction l1 as [|c l1 IH]; intros s tr; simpl; [done|].
  destruct (transform c s) as [[[? ?] s']|e]; [apply IH | done].
Qed.

Lemma visit_all_trace l s tr :
  ∃ l', (visit_all transform l s tr).2 = tr ++ l' ∧ l' `prefix_of` l.
Proof.
  revert s tr. induction l as [|c l IH]; intros s tr; simpl.
  - exists []. by rewrite app_nil_r.
  - destruct (transform c s) as [[[? ?] s']|e]; simpl.
    + destruct (IH s' (tr ++ [c])) as (l' & -> & Hl').
      exists (c :: l'). rewrite <- app_assoc. split; [done|].
      by apply prefix_cons.
    + exists [c]. split; [done|]. apply prefix_cons, prefix_nil.
Qed.

Hypothesis Hro : read_only transform.

Lemma visit_read_only comp s w :
  visit transform comp s w
  = finish comp (created w) (visit_all transform [comp] s (visited w)).
Proof.
  unfold visit. simpl. specialize (Hro comp s).
  destruct (transform comp s) as [[[c m] s']|e]; simpl; [|done].
  by destruct Hro as [-> ->].
Qed.

(** The last step at a parent whose children were handed back unmodified:
    nothing is rebuilt, and the parent is visited. *)
Lemma visit_parent_read_only comp new s tr made :
  (comp ← rebuilt false new comp;
   '(comp, comp_modified, s) ← visit transform comp s;
   T_ret (comp, comp_modified || false, s)) (World tr made)
  = finish comp made (visit_all transform [comp] s tr).
Proof.
  unfold mbind, T_mbind, T_bind, rebuilt, visit, T_ret. simpl.
  specialize (Hro comp s).
  destruct (transform comp s) as [[[c m] s']|e]; simpl; [|done].
  by destruct Hro as [-> ->].
Qed.

Lemma finish_app comp made l s tr :
  match visit_all transform l s tr with
  | (Ok s', tr') => finish comp made (visit_all transform [comp] s' tr')
  | (Raise e, tr') => (Raise e, World tr' made)
  end
  = finish comp made (visit_all transform (l ++ [comp]) s tr).
Proof.
  rewrite visit_all_app.
  by destruct (visit_all transform l s tr) as [[s'|e] tr'].
Qed.

(** On a read-only visitor the engine hands the nodes of the tree to the
    visitor in postorder, stops at the first visit that raises, returns
    the tree it was given, unmodified, and makes no node. *)
Lemma transform_postorder_read_only comp :
  ∀ s w, transform_postorder transform comp s w
         = finish comp (created w)
             (visit_all transform (postorder comp) s (visited w)).
Proof.
  induction comp as [name ty|name pty result ty IH|locals result ty IHl IH
                    |fn arg ty IHf IHa|source index ty IH|elements ty IHe
                    |uri ty|uri ty] using building_block_ind; intros s w.
  - apply visit_read_only.
  - cbn [transform_postorder postorder].
    rewrite <- finish_app. unfold mbind at 1, T_mbind at 1, T_bind at 1.
    rewrite IH.
    destruct (visit_all transform (postorder result) s (visited w))
      as [[s1|e] tr1]; cbn [finish]; [|done].
    apply visit_parent_read_only.
  - cbn [transform_postorder postorder].
    rewrite app_assoc, <- finish_app, visit_all_app.
    unfold mbind at 1, T_mbind at 1, T_bind at 1.
    assert (Hgo : ∀ s w,
              transform_locals (transform_postorder transform) locals s w =
              match visit_all transform
                      (flat_map (λ '(_, value), postorder value) locals)
                      s (visited w) with
              | (Ok s', tr') => (Ok (locals, false, s'), World tr' (created w))
              | (Raise e, tr') => (Raise e, World tr' (created w))
              end).
    { clear s w. induction IHl as [|[key value] l Hv _ IHl']; intros s w;
        [by destruct w|].
      cbn [flat_map]. rewrite visit_all_app. simpl in Hv.
      cbn [transform_locals]. unfold mbind, T_mbind, T_bind. rewrite Hv.
      destruct (visit_all transform (postorder value) s (visited w))
        as [[s1|e] tr1]; cbn [finish]; [|done].
      rewrite IHl'. cbn [visited created].
      by destruct (visit_all transform _ s1 tr1) as [[s2|e] tr2]. }
    rewrite Hgo.
    destruct (visit_all transform _ s (visited w)) as [[s1|e] tr1]; [|done].
    unfold mbind at 1, T_mbind at 1, T_bind at 1.
    rewrite IH. cbn [visited created].
    destruct (visit_all transform (postorder result) s1 tr1) as [[s2|e] tr2];
      cbn [finish]; [|done].
    apply visit_parent_read_only.
  - cbn [transform_postorder postorder].
    rewrite app_assoc, <- finish_app, visit_all_app.
    unfold mbind at 1, T_mbind at 1, T_bind at 1.
    rewrite IHf.
    destruct (visit_all transform (postorder fn) s (visited w))
      as [[s1|e] tr1]; cbn [finish]; [|done].
    unfold mbind at 1, T_mbind at 1, T_bind at 1.
    rewrite IHa. cbn [visited created].
    destruct (visit_all transform (postorder arg) s1 tr1) as [[s2|e] tr2];
      cbn [finish]; [|done].
    apply visit_parent_read_only.
  - cbn [transform_postorder postorder].
    rewrite <- finish_app. unfold mbind at 1, T_mbind at 1, T_bind at 1.
    rewrite IH.
    destruct (visit_all transform (postorder source) s (visited w))
      as [[s1|e] tr1]; cbn [finish]; [|done].
    apply visit_parent_read_only.
  - cbn [transform_postorder postorder].
    rewrite <- finish_app. unfold mbind at 1, T_mbind at 1, T_bind at 1.
    assert (Hgo : ∀ s w,
              transform_elements (transform_postorder transform) elements s w =
              match visit_all transform (flat_map postorder elements)
                      s (visited w) with
              | (Ok s', tr') => (Ok (elements, false, s'), World tr' (created w))
              | (Raise e, tr') => (Raise e, World tr' (created w))
              end).
    { clear s w. induction IHe as [|value l Hv _ IHl']; intros s w;
        [by destruct w|].
      cbn [flat_map]. rewrite visit_all_app.
      cbn [transform_elements]. unfold mbind, T_mbind, T_bind. rewrite Hv.
      destruct (visit_all transform (postorder value) s (visited w))
        as [[s1|e] tr1]; cbn [finish]; [|done].
      rewrite IHl'. cbn [visited created].
      by destruct (visit_all transform _ s1 tr1) as [[s2|e] tr2]. }
    rewrite Hgo.
    destruct (visit_all transform _ s (visited w)) as [[s1|e] tr1]; [|done].
    apply visit_parent_read_only.
  - apply visit_read_only.
  - apply visit_read_only.
Qed.
End EngineFacts.

(** ** The node counter *)

Section CountFacts.
Import transformation_utils tree_analysis.

Lemma _function_read_only predicate : read_only (_function predicate).
Proof.
  intros comp s. unfold _function, py_call.
  destruct predicate as [| | | | | |f]; try done.
  by destruct (f comp) as [[|]|].
Qed.

Lemma matching_cons p comp l :
  matching p (comp :: l) = (if p comp then 1 else 0) + matching p l.
Proof.
  unfold matching. rewrite filter_cons.
  destruct (p comp) eqn:Hp; case_decide; try done; try (simpl length; lia).
Qed.

Lemma matching_nonneg p l : 0 ≤ matching p l.
Proof. unfold matching. lia. Qed.

Lemma matching_mono p q l :
  (∀ comp, p comp = true → q comp = true) → matching p l ≤ matching q l.
Proof.
  intros Hpq. induction l as [|comp l IH]; [done|].
  rewrite !matching_cons. specialize (Hpq comp).
  destruct (p comp), (q comp); try lia; by discriminate Hpq.
Qed.

Lemma matching_true l : matching (λ _, true) l = Z.of_nat (length l).
Proof.
  induction l as [|comp l IH]; [done|].
  rewrite matching_cons, IH. simpl length. lia.
Qed.

Lemma _function_predicate p comp s :
  _function (py_predicate p) comp s
  = Ok (comp, false, s + (if p comp then 1 else 0)).
Proof.
  unfold _function, py_predicate, py_call.
  destruct (p comp); [done|]. by rewrite Z.add_0_r.
Qed.

Lemma visit_all_function p l s tr :
  visit_all (_function (py_predicate p)) l s tr = (Ok (s + matching p l), tr ++ l).
Proof.
  revert s tr. induction l as [|comp l IH]; intros s tr.
  - simpl. by rewrite Z.add_0_r, app_nil_r.
  - rewrite matching_cons. cbn [visit_all].
    rewrite _function_predicate, IH, <- app_assoc. simpl.
    do 2 f_equal. lia.
Qed.

Lemma visit_all_function_None l s tr :
  visit_all (_function PyNone) l s tr = (Ok (s + Z.of_nat (length l)), tr ++ l).
Proof.
  revert s tr. induction l as [|comp l IH]; intros s tr.
  - simpl. by rewrite Z.add_0_r, app_nil_r.
  - cbn [visit_all _function]. rewrite IH, <- app_assoc. simpl length.
    simpl. do 2 f_equal; lia.
Qed.

Lemma count_predicate tree p :
  run (count (PyComp tree) (py_predicate p))
  = (Ok (matching p (postorder tree)), postorder tree).
Proof.
  unfold run, count. cbn [py_typecheck.check_type_ComputationBuildingBlock].
  unfold mbind, T_mbind, T_bind, T_ret.
  rewrite (transform_postorder_read_only _ (_function_read_only _)).
  by rewrite visit_all_function.
Qed.

Lemma count_None tree :
  run (count (PyComp tree) PyNone)
  = (Ok (Z.of_nat (length (postorder tree))), postorder tree).
Proof.
  unfold run, count. cbn [py_typecheck.check_type_ComputationBuildingBlock].
  unfold mbind, T_mbind, T_bind, T_ret.
  rewrite (transform_postorder_read_only _ (_function_read_only _)).
  by rewrite visit_all_function_None.
Qed.
Lemma matching_app p l1 l2 : matching p (l1 ++ l2) = matching p l1 + matching p l2.
Proof.
  induction l1 as [|comp l1 IH]; [done|].
  cbn [app]. rewrite !matching_cons, IH. lia.
Qed.

Lemma matching_concat p (ls : list (list ComputationBuildingBlock)) :
  matching p (concat ls) = total (matching p <$> ls).
Proof.
  induction ls as [|l ls IH]; [done|].
  cbn [concat fmap list_fmap total foldr]. rewrite matching_app, IH. done.
Qed.

Lemma postorder_children comp :
  postorder comp = concat (postorder <$> children comp) ++ [comp].
Proof.
  destruct comp as [| |locals result ?|fn arg ?| |elements ?| |];
    cbn [postorder children fmap list_fmap concat]; rewrite ?app_nil_r; try done.
  - rewrite fmap_app, concat_app. cbn [fmap list_fmap concat].
    rewrite app_nil_r, <- app_assoc. f_equal.
    induction locals as [|[name value] locals IH]; [done|].
    cbn [flat_map fmap list_fmap concat]. by rewrite IH.
  - by rewrite <- app_assoc.
  - f_equal. induction elements as [|value elements IH]; [done|].
    cbn [flat_map fmap list_fmap concat]. by rewrite IH.
Qed.

Lemma node_count_children tree :
  Z.of_nat (length (postorder tree))
  = 1 + total ((λ child, Z.of_nat (length (postorder child))) <$> children tree).
Proof.
  rewrite postorder_children at 1. rewrite length_app, Nat2Z.inj_add.
  rewrite <- matching_true, matching_concat, <- list_fmap_compose.
  cbn [length]. rewrite Z.add_comm. do 2 f_equal.
  apply list_fmap_ext. intros i child _. apply matching_true.
Qed.

End CountFacts.

(** C9. For every tree, [count(tree)] with the predicate omitted (the default
    [None]) returns the same integer as [count(tree, always-true)]: both calls
    return normally, after visiting every node once, and the integer is the
    number of nodes of the tree: the default form counts every node. *)
Theorem count_default_counts_every_node (tree : ComputationBuildingBlock) :
  ∃ n : Z,
    run (tree_analysis.count (PyComp tree) PyNone) = (Ok n, postorder tree)
    ∧ run (tree_analysis.count (PyComp tree) (py_predicate (λ _, true)))
      = (Ok n, postorder tree)
    ∧ n = Z.of_nat (length (postorder tree))
    ∧ n = 1 + total ((λ child, Z.of_nat (length (postorder child))) <$> children tree).
Proof.
  exists (Z.of_nat (length (postorder tree))).
  rewrite count_None, count_predicate, matching_true. repeat split.
  apply node_count_children.
Qed.

(** C10. [count] is monotone in its predicate: when [p] implies [q] on all
    nodes, [count(tree, p) <= count(tree, q)]; and every count lies between 0
    and [count(tree)]. *)
Theorem count_monotone (tree : ComputationBuildingBlock)
    (p q : ComputationBuildingBlock → bool)
    (Hpq : ∀ node, p node = true → q node = true) :
  ∃ np nq nall : Z,
    (run (tree_analysis.count (PyComp tree) (py_predicate p))).1 = Ok np
    ∧ (run (tree_analysis.count (PyComp tree) (py_predicate q))).1 = Ok nq
    ∧ (run (tree_analysis.count (PyComp tree) PyNone)).1 = Ok nall
    ∧ np ≤ nq
    ∧ 0 ≤ np ≤ nall.
Proof.
  exists (matching p (postorder tree)), (matching q (postorder tree)),
    (Z.of_nat (length (postorder tree))).
  rewrite !count_predicate, count_None. repeat split; try done.
  - by apply matching_mono.
  - apply matching_nonneg.
  - rewrite <- matching_true. by apply matching_mono.
Qed.

(** ** The two checkers *)

Section CheckFacts.
Import transformation_utils tree_analysis.

(** A checking visitor: it raises on the nodes it rejects and hands the
    others back untouched. *)
Context (transform : visitor unit)
        (bad : ComputationBuildingBlock → bool)
        (err : ComputationBuildingBlock → exn).
Hypothesis Hcheck : ∀ comp s,
    transform comp s = if bad comp then Raise (err comp) else Ok (comp, false, s).

Lemma checking_read_only : read_only transform.
Proof. intros comp s. rewrite Hcheck. by destruct (bad comp). Qed.

Lemma visit_all_checking l s tr :
  visit_all transform l s tr =
  match list_find (λ comp, bad comp = true) l with
  | Some (i, comp) => (Raise (err comp), tr ++ take (S i) l)
  | None => (Ok s, tr ++ l)
  end.
Proof.
  revert tr. induction l as [|comp l IH]; intros tr.
  - simpl. by rewrite app_nil_r.
  - cbn [visit_all list_find]. rewrite Hcheck.
    destruct (bad comp) eqn:Hbad; case_decide; try done.
    rewrite IH. destruct (list_find _ l) as [[i c]|]; simpl;
      by rewrite <- app_assoc.
Qed.

Lemma checking_traversal comp w :
  (_ ← transform_postorder transform comp (); mret ()) w =
  match list_find (λ comp, bad comp = true) (postorder comp) with
  | Some (i, node) =>
      (Raise (err node),
       World (visited w ++ take (S i) (postorder comp)) (created w))
  | None => (Ok (), World (visited w ++ postorder comp) (created w))
  end.
Proof.
  unfold mbind, T_mbind, T_bind.
  rewrite (transform_postorder_read_only _ checking_read_only).
  rewrite visit_all_checking.
  by destruct (list_find _ (postorder comp)) as [[i c]|].
Qed.
End CheckFacts.

Section PlacementFacts.
Import transformation_utils tree_analysis.
Context (compact_representation : ComputationBuildingBlock → string)
        (placement_str : PlacementLiteral → string).

Lemma _check_single_placement_checking required comp s :
  _check_single_placement compact_representation placement_str required comp s
  = if has_other_placement required comp
    then Raise (placement_error compact_representation placement_str required comp)
    else Ok (comp, false, s).
Proof.
  unfold _check_single_placement, has_other_placement, placement_error.
  by destruct (type_signature_of comp).
Qed.

Lemma check_has_single_placement_run tree required :
  run (check_has_single_placement compact_representation placement_str
         (PyComp tree) (PyPlacement required)) =
  match list_find (λ comp, has_other_placement required comp = true)
          (postorder tree) with
  | Some (i, node) =>
      (Raise (placement_error compact_representation placement_str required node),
       take (S i) (postorder tree))
  | None => (Ok (), postorder tree)
  end.
Proof.
  unfold run, check_has_single_placement.
  cbn [py_typecheck.check_type_ComputationBuildingBlock
       py_typecheck.check_type_PlacementLiteral].
  rewrite !T_bind_ret.
  rewrite (checking_traversal _ _ _ (_check_single_placement_checking required)
             tree (World [] [])).
  by destruct (list_find _ (postorder tree)) as [[i node]|].
Qed.

Lemma _check_whitelisted_checking comp s :
  _check_whitelisted compact_representation comp s
  = if not_whitelisted comp
    then Raise (whitelist_error compact_representation comp) else Ok (comp, false, s).
Proof. unfold _check_whitelisted, not_whitelisted. by destruct comp. Qed.

Lemma check_intrinsics_whitelisted_run tree :
  run (check_intrinsics_whitelisted_for_reduction compact_representation
         (PyComp tree)) =
  match list_find (λ comp, not_whitelisted comp = true) (postorder tree) with
  | Some (i, node) =>
      (Raise (whitelist_error compact_representation node), take (S i) (postorder tree))
  | None => (Ok (), postorder tree)
  end.
Proof.
  unfold run, check_intrinsics_whitelisted_for_reduction.
  cbn [py_typecheck.check_type_ComputationBuildingBlock].
  rewrite !T_bind_ret.
  rewrite (checking_traversal _ _ _ _check_whitelisted_checking tree (World [] [])).
  by destruct (list_find _ (postorder tree)) as [[i node]|].
Qed.
End PlacementFacts.

(** C5. [check_intrinsics_whitelisted_for_reduction] raises on the first
    Intrinsic node, in postorder, whose operator identifier is absent from the
    hardcoded whitelist: the message cites that node's compact rendering and
    no later node is visited. It returns normally when every Intrinsic's
    identifier is whitelisted. In particular it raises on an Intrinsic
    "federated_mean" and passes on an Intrinsic "federated_map". *)
Theorem check_intrinsics_whitelisted_for_reduction_spec
    (compact_representation : ComputationBuildingBlock → string)
    (tree : ComputationBuildingBlock) :
  let check comp :=
    run (tree_analysis.check_intrinsics_whitelisted_for_reduction
           compact_representation (PyComp comp)) in
  let message node :=
    "Encountered an Intrinsic not currently reducible to aggregate or "
    +:+ "broadcast, the intrinsic " +:+ compact_representation node in
  (match list_find (λ comp, not_whitelisted comp = true) (postorder tree) with
   | Some (i, node) =>
       ∃ uri ty, node = Intrinsic uri ty ∧ (uri ∉ tree_analysis.uri_whitelist)
                 ∧ check tree = (Raise (ValueError (message node)),
                                 take (S i) (postorder tree))
   | None => check tree = (Ok (), postorder tree)
   end)
  ∧ ((∀ uri ty, Intrinsic uri ty ∈ postorder tree → uri ∈ tree_analysis.uri_whitelist)
     → check tree = (Ok (), postorder tree))
  ∧ (∀ ty, check (Intrinsic "federated_mean" ty)
           = (Raise (ValueError (message (Intrinsic "federated_mean" ty))),
              [Intrinsic "federated_mean" ty]))
  ∧ (∀ ty, check (Intrinsic "federated_map" ty)
           = (Ok (), [Intrinsic "federated_map" ty])).
Proof.
  intros check message. subst check.
  split; [|split; [|split]].
  - rewrite check_intrinsics_whitelisted_run.
    destruct (list_find _ (postorder tree)) as [[i node]|] eqn:Hfind; [|done].
    apply list_find_Some in Hfind as (_ & Hbad & _).
    destruct node; try discriminate Hbad.
    eexists _, _. split; [done|]. split; [|done].
    simpl in Hbad. by apply bool_decide_eq_true in Hbad.
  - intros Hall. rewrite check_intrinsics_whitelisted_run.
    destruct (list_find _ (postorder tree)) as [[i node]|] eqn:Hfind; [|done].
    apply list_find_Some in Hfind as (Hi & Hbad & _).
    destruct node; try discriminate Hbad.
    simpl in Hbad. apply bool_decide_eq_true in Hbad.
    destruct Hbad. eapply Hall, list_elem_of_lookup_2, Hi.
  - intros ty. by rewrite check_intrinsics_whitelisted_run.
  - intros ty. by rewrite check_intrinsics_whitelisted_run.
Qed.

(** C6. [check_has_single_placement(tree, required_placement)] raises exactly
    when the tree holds a node whose annotation is a federated type with a
    placement other than [required_placement]; it raises on the first such
    node in postorder, the message naming the required placement, the
    conflicting placement and the node's compact rendering; it returns
    normally when every federated-typed node carries the required placement. *)
Theorem check_has_single_placement_spec
    (compact_representation : ComputationBuildingBlock → string)
    (placement_str : PlacementLiteral → string)
    (tree : ComputationBuildingBlock) (required : PlacementLiteral) :
  let outcome :=
    run (tree_analysis.check_has_single_placement
           compact_representation placement_str
           (PyComp tree) (PyPlacement required)) in
  ((∃ e, outcome.1 = Raise e)
   ↔ ∃ node member placement,
       node ∈ postorder tree
       ∧ type_signature_of node = FederatedType member placement
       ∧ placement ≠ required)
  ∧ (match list_find (λ comp, has_other_placement required comp = true)
             (postorder tree) with
     | Some (i, node) =>
        ∃ member placement,
          type_signature_of node = FederatedType member placement
          ∧ placement ≠ required
          ∧ outcome =
              (Raise (ValueError
                 ("Comp contains a placement other than "
                  +:+ placement_str required
                  +:+ "; placement " +:+ placement_str placement
                  +:+ " on comp " +:+ compact_representation node
                  +:+ " inside the structure. ")),
               take (S i) (postorder tree))
     | None => outcome = (Ok (), postorder tree)
     end)
  ∧ ((∀ node member placement,
        node ∈ postorder tree
        → type_signature_of node = FederatedType member placement
        → placement = required)
     → outcome = (Ok (), postorder tree)).
Proof.
  intros outcome. subst outcome. rewrite check_has_single_placement_run.
  destruct (list_find _ (postorder tree)) as [[i node]|] eqn:Hfind.
  - apply list_find_Some in Hfind as (Hi & Hbad & _).
    apply list_elem_of_lookup_2 in Hi.
    unfold has_other_placement in Hbad. unfold placement_error.
    destruct (type_signature_of node) as [| | |member placement] eqn:Hty;
      try discriminate Hbad.
    apply bool_decide_eq_true in Hbad.
    split; [|split].
    + split; [intros _; by exists node, member, placement | intros _; by eexists].
    + by exists member, placement.
    + intros Hall. destruct Hbad. by eapply Hall.
  - apply list_find_None in Hfind.
    split; [|done]. split; [by intros [e ?]|].
    intros (node & member & placement & Hin & Hty & Hne).
    rewrite Forall_forall in Hfind. destruct (Hfind node Hin).
    unfold has_other_placement. rewrite Hty. by apply bool_decide_eq_true.
Qed.

(** ** Dependency propagation *)

Section PropagationFacts.
Import dependence.
Local Open Scope nat_scope.

Lemma elem_of_under p i X : p ∈ under i X ↔ ∃ q, p = i :: q ∧ q ∈ X.
Proof. unfold under. by rewrite elem_of_map. Qed.

Lemma under_empty i : under i ∅ = ∅.
Proof. apply set_map_empty. Qed.

Lemma size_under i X : size (under i X) = size X.
Proof.
  unfold under, set_map. rewrite size_list_to_set.
  - by rewrite length_fmap.
  - apply (NoDup_fmap_2 _), NoDup_elements.
Qed.

Lemma all_false_insert scope name :
  all_false scope → all_false (<[name := false]> scope).
Proof.
  intros Hs x. destruct (decide (name = x)) as [->|Hne].
  - by rewrite lookup_insert_eq.
  - by rewrite lookup_insert_ne.
Qed.

Section Membership.
Variable predicate : ComputationBuildingBlock → bool.

Lemma elem_of_propagate_elements f l i p :
  p ∈ (propagate_elements f l i).2 →
  ∃ j child q, l !! j = Some child ∧ p = (i + j) :: q ∧ q ∈ (f child).2.
Proof.
  revert i. induction l as [|value l IH]; intros i; cbn [propagate_elements].
  - set_solver.
  - destruct (f value) as [bv Xv] eqn:Hv.
    destruct (propagate_elements f l (S i)) as [bl Xl] eqn:Hl.
    cbn [snd]. rewrite elem_of_union, elem_of_under.
    intros [(q & -> & Hq)|Hp].
    + exists 0, value, q. rewrite Nat.add_0_r, Hv. done.
    + specialize (IH (S i)). rewrite Hl in IH.
      destruct (IH Hp) as (j & child & q & Hj & -> & Hq).
      exists (S j), child, q. split; [done|]. split; [|done].
      f_equal. lia.
Qed.

Lemma elem_of_propagate_locals f l scope i p :
  p ∈ (propagate_locals f l scope i).2 →
  ∃ j name child scope' q,
    l !! j = Some (name, child) ∧ p = (i + j) :: q ∧ q ∈ (f scope' child).2.
Proof.
  revert scope i. induction l as [|[name value] l IH]; intros scope i;
    cbn [propagate_locals].
  - set_solver.
  - destruct (f scope value) as [bv Xv] eqn:Hv.
    destruct (propagate_locals f l (<[name:=bv]> scope) (S i))
      as [[scope' bl] Xl] eqn:Hl.
    cbn [snd]. rewrite elem_of_union, elem_of_under.
    intros [(q & -> & Hq)|Hp].
    + exists 0, name, value, scope, q. rewrite Nat.add_0_r, Hv. done.
    + specialize (IH (<[name:=bv]> scope) (S i)). rewrite Hl in IH.
      destruct (IH Hp) as (j & name' & child & scope'' & q & Hj & -> & Hq).
      exists (S j), name', child, scope'', q. split; [done|]. split; [|done].
      f_equal. lia.
Qed.

Lemma elem_of_postorder_child comp i child n :
  children comp !! i = Some child → n ∈ postorder child → n ∈ postorder comp.
Proof.
  intros Hi Hn.
  assert (Hflat : ∀ l : list ComputationBuildingBlock,
             child ∈ l → n ∈ flat_map postorder l).
  { intros l Hl. apply list_elem_of_In, in_flat_map.
    exists child. by rewrite <- !list_elem_of_In. }
  destruct comp as [| |locals result ?|fn arg ?| |elements ?| |];
    cbn [children postorder] in *.
  - done.
  - apply list_lookup_singleton_Some in Hi as [_ <-]. set_solver.
  - apply lookup_app_Some in Hi as [Hi|[_ Hi]].
    + apply elem_of_app. left. apply list_elem_of_In, in_flat_map.
      apply list_lookup_fmap_Some_1 in Hi as ([name c] & -> & Hi).
      exists (name, c). split; [|by apply list_elem_of_In].
      eapply list_elem_of_In, list_elem_of_lookup_2, Hi.
    + apply list_lookup_singleton_Some in Hi as [_ <-]. set_solver.
  - destruct i as [|[|i]]; [| |done]; injection Hi as <-; set_solver.
  - apply list_lookup_singleton_Some in Hi as [_ <-]. set_solver.
  - apply elem_of_app. left. eapply Hflat, list_elem_of_lookup_2, Hi.
  - done.
  - done.
Qed.

Lemma elem_of_postorder_self comp : comp ∈ postorder comp.
Proof. destruct comp; cbn [postorder]; set_solver. Qed.

(** Every identity in the dependent set is the position of a node of the
    tree. *)
Lemma propagate_positions comp :
  ∀ scope p, p ∈ (propagate predicate scope comp).2 →
             ∃ n, node_at p comp = Some n ∧ n ∈ postorder comp.
Proof.
  assert (Hroot : ∀ comp b X p,
             p ∈ (node_status predicate comp b X).2 → p = [] ∨ p ∈ X).
  { intros c b X p. unfold node_status. cbn [snd].
    destruct (predicate c || b); rewrite elem_of_union;
      (intros [Hp|Hp]; [|by right]).
    - left. by apply elem_of_singleton in Hp.
    - by apply elem_of_empty in Hp. }
  assert (Hnil : ∀ comp, ∃ n, node_at [] comp = Some n ∧ n ∈ postorder comp).
  { intros c. exists c. split; [done|]. apply elem_of_postorder_self. }
  assert (Hchild : ∀ comp i child q,
             children comp !! i = Some child →
             (∃ n, node_at q child = Some n ∧ n ∈ postorder child) →
             ∃ n, node_at (i :: q) comp = Some n ∧ n ∈ postorder comp).
  { intros c i child q Hi (n & Hn & Hin). exists n.
    cbn [node_at]. rewrite Hi. split; [done|].
    by eapply elem_of_postorder_child. }
  induction comp as [name ty|name pty result ty IH|locals result ty IHl IH
                    |fn arg ty IHf IHa|source index ty IH|elements ty IHe
                    |uri ty|uri ty] using building_block_ind;
    intros scope p; cbn [propagate].
  - intros [->|Hp]%Hroot; [apply Hnil | set_solver].
  - destruct (propagate predicate _ result) as [b X] eqn:Hr.
    intros [->|Hp]%Hroot; [apply Hnil|].
    apply elem_of_under in Hp as (q & -> & Hq).
    apply (Hchild _ _ result); [done|].
    eapply IH. by rewrite Hr.
  - destruct (propagate_locals _ locals scope 0) as [[scope' b] X] eqn:Hl.
    destruct (propagate predicate scope' result) as [br Xr] eqn:Hr.
    intros [->|Hp]%Hroot; [apply Hnil|].
    apply elem_of_union in Hp as [Hp|Hp].
    + pose proof (elem_of_propagate_locals (propagate predicate)
                    locals scope 0 p) as Hm.
      rewrite Hl in Hm.
      destruct (Hm Hp) as (j & name & child & scope'' & q & Hj & -> & Hq).
      change (0 + j) with j. apply (Hchild _ _ child).
      * cbn [children]. apply lookup_app_l_Some.
        by rewrite list_lookup_fmap, Hj.
      * rewrite Forall_lookup in IHl. by eapply (IHl _ _ Hj).
    + apply elem_of_under in Hp as (q & -> & Hq).
      apply (Hchild _ _ result).
      * cbn [children]. rewrite lookup_app_r by (by rewrite length_fmap).
        by rewrite length_fmap, Nat.sub_diag.
      * eapply IH. by rewrite Hr.
  - destruct (propagate predicate scope fn) as [bf Xf] eqn:Hf.
    destruct (propagate predicate scope arg) as [ba Xa] eqn:Ha.
    intros [->|Hp]%Hroot; [apply Hnil|].
    apply elem_of_union in Hp as [Hp|Hp];
      apply elem_of_under in Hp as (q & -> & Hq).
    + apply (Hchild _ _ fn); [done|]. eapply IHf. by rewrite Hf.
    + apply (Hchild _ _ arg); [done|]. eapply IHa. by rewrite Ha.
  - destruct (propagate predicate scope source) as [b X] eqn:Hs.
    intros [->|Hp]%Hroot; [apply Hnil|].
    apply elem_of_under in Hp as (q & -> & Hq).
    apply (Hchild _ _ source); [done|]. eapply IH. by rewrite Hs.
  - destruct (propagate_elements _ elements 0) as [b X] eqn:He.
    intros [->|Hp]%Hroot; [apply Hnil|].
    pose proof (elem_of_propagate_elements (propagate predicate scope)
                  elements 0 p) as Hm.
    rewrite He in Hm.
    destruct (Hm Hp) as (j & child & q & Hj & -> & Hq).
    change (0 + j) with j. apply (Hchild _ _ child); [done|].
    rewrite Forall_lookup in IHe. by eapply (IHe _ _ Hj).
  - intros [->|Hp]%Hroot; [apply Hnil | set_solver].
  - intros [->|Hp]%Hroot; [apply Hnil | set_solver].
Qed.
End Membership.

Section NoMatch.
Variable predicate : ComputationBuildingBlock → bool.

Lemma node_status_false comp :
  predicate comp = false → node_status predicate comp false ∅ = (false, ∅).
Proof.
  intros Hp. unfold node_status. rewrite Hp. cbn [orb].
  by rewrite (left_id_L ∅ (∪)).
Qed.

(** A subtree holding no node that matches the predicate, evaluated in a
    scope that binds no dependent name, holds no dependent node. *)
Lemma propagate_no_match comp :
  ∀ scope,
    Forall (λ n, predicate n = false) (postorder comp) →
    all_false scope →
    propagate predicate scope comp = (false, ∅).
Proof.
  induction comp as [name ty|name pty result ty IH|locals result ty IHl IH
                    |fn arg ty IHf IHa|source index ty IH|elements ty IHe
                    |uri ty|uri ty] using building_block_ind;
    intros scope Hno Hscope; cbn [propagate postorder] in *.
  - apply Forall_inv in Hno.
    assert (default false (scope !! name) = false) as ->.
    { destruct (scope !! name) as [[|]|] eqn:Hname;
        [by destruct (Hscope name) | done | done]. }
    by apply node_status_false.
  - apply Forall_app in Hno as [Hr Hc%Forall_inv].
    rewrite (IH _ Hr (all_false_insert _ _ Hscope)).
    rewrite under_empty. by apply node_status_false.
  - apply Forall_app in Hno as [Hl [Hr Hc%Forall_inv]%Forall_app].
    assert (Hgo : ∀ i, ∃ scope',
               propagate_locals (propagate predicate) locals scope i
               = (scope', false, ∅) ∧ all_false scope').
    { clear IH Hr Hc. revert scope Hscope.
      induction IHl as [|[name value] l Hv _ IHl']; intros scope Hscope i;
        cbn [propagate_locals].
      - by exists scope.
      - cbn [flat_map] in Hl. apply Forall_app in Hl as [Hl1 Hl2].
        simpl in Hv. rewrite (Hv _ Hl1 Hscope).
        destruct (IHl' Hl2 _ (all_false_insert _ name Hscope) (S i))
          as (scope' & -> & Hscope').
        exists scope'. split; [|done].
        by rewrite under_empty, (left_id_L ∅ (∪)). }
    destruct (Hgo 0) as (scope' & -> & Hscope').
    rewrite (IH _ Hr Hscope'), under_empty, (left_id_L ∅ (∪)).
    by apply node_status_false.
  - apply Forall_app in Hno as [Hf [Ha Hc%Forall_inv]%Forall_app].
    rewrite (IHf _ Hf Hscope), (IHa _ Ha Hscope).
    rewrite !under_empty, (left_id_L ∅ (∪)). by apply node_status_false.
  - apply Forall_app in Hno as [Hs Hc%Forall_inv].
    rewrite (IH _ Hs Hscope), under_empty. by apply node_status_false.
  - apply Forall_app in Hno as [He Hc%Forall_inv].
    assert (Hgo : ∀ i, propagate_elements (propagate predicate scope) elements i
                       = (false, ∅)).
    { clear Hc. induction IHe as [|value l Hv _ IHl']; intros i;
        cbn [propagate_elements]; [done|].
      cbn [flat_map] in He. apply Forall_app in He as [He1 He2].
      rewrite (Hv _ He1 Hscope), (IHl' He2 (S i)).
      by rewrite under_empty, (left_id_L ∅ (∪)). }
    rewrite Hgo. by apply node_status_false.
  - apply Forall_inv in Hno. by apply node_status_false.
  - apply Forall_inv in Hno. by apply node_status_false.
Qed.
End NoMatch.

Section AllMatch.
Local Abbreviation always_true := (λ _ : ComputationBuildingBlock, true).

Lemma size_with_root (below : gset path) :
  [] ∉ below → size ({[ [] ]} ∪ below) = S (size below).
Proof.
  intros Hroot. rewrite size_union, size_singleton; [done|].
  intros p ->%elem_of_singleton. exact Hroot.
Qed.

Lemma size_under_union (i : nat) (X Y : gset path) :
  (∀ p, p ∈ Y → ∃ j q, p = j :: q ∧ i ≠ j) →
  size (under i X ∪ Y) = size X + size Y.
Proof.
  intros HY. rewrite size_union, size_under; [done|].
  intros p (q & -> & _)%elem_of_under (j & q' & [= -> ->] & Hne)%HY. done.
Qed.

Lemma propagate_elements_always_true scope l :
  Forall (λ comp, ∀ scope, ∃ X,
            propagate always_true scope comp = (true, X)
            ∧ size X = length (postorder comp)) l →
  ∀ i, ∃ b X,
    propagate_elements (propagate always_true scope) l i = (b, X)
    ∧ size X = length (flat_map postorder l).
Proof.
  induction 1 as [|value l Hv _ IH]; intros i; cbn [propagate_elements].
  - exists false, ∅. by rewrite size_empty.
  - destruct (Hv scope) as (Xv & Hpv & Hsize).
    destruct (IH (S i)) as (bl & Xl & Hl & Hsizel).
    pose proof (elem_of_propagate_elements (propagate always_true scope)
                  l (S i)) as Hm.
    rewrite Hpv, Hl. rewrite Hl in Hm. eexists _, _. split; [done|].
    cbn [flat_map]. rewrite length_app, <- Hsize, <- Hsizel.
    apply size_under_union. intros p Hp.
    destruct (Hm p Hp) as (j & _ & q & _ & -> & _).
    eexists _, _. split; [done|]. lia.
Qed.

Lemma propagate_locals_always_true l :
  Forall (λ kv : string * ComputationBuildingBlock, ∀ scope, ∃ X,
            propagate always_true scope kv.2 = (true, X)
            ∧ size X = length (postorder kv.2)) l →
  ∀ scope i, ∃ scope' b X,
    propagate_locals (propagate always_true) l scope i = (scope', b, X)
    ∧ size X = length (flat_map (λ '(_, value), postorder value) l).
Proof.
  induction 1 as [|[name value] l Hv _ IH]; intros scope i;
    cbn [propagate_locals].
  - exists scope, false, ∅. by rewrite size_empty.
  - destruct (Hv scope) as (Xv & Hpv & Hsize). simpl in Hpv, Hsize.
    destruct (IH (<[name:=true]> scope) (S i))
      as (scope' & bl & Xl & Hl & Hsizel).
    pose proof (elem_of_propagate_locals (propagate always_true)
                  l (<[name:=true]> scope) (S i)) as Hm.
    rewrite Hpv, Hl. rewrite Hl in Hm. eexists _, _, _. split; [done|].
    cbn [flat_map]. rewrite length_app, <- Hsize, <- Hsizel.
    apply size_under_union. intros p Hp.
    destruct (Hm p Hp) as (j & _ & _ & _ & q & _ & -> & _).
    eexists _, _. split; [done|]. lia.
Qed.

(** Under the constant-true predicate every node is dependent: the
    dependent set of a subtree has one identity per node. *)
Lemma propagate_always_true comp :
  ∀ scope, ∃ X,
    propagate always_true scope comp = (true, X)
    ∧ size X = length (postorder comp).
Proof.
  assert (Hunder : ∀ i X, [] ∉ under i X).
  { intros i X (q & [=] & _)%elem_of_under. }
  induction comp as [name ty|name pty result ty IH|locals result ty IHl IH
                    |fn arg ty IHf IHa|source index ty IH|elements ty IHe
                    |uri ty|uri ty] using building_block_ind;
    intros scope; cbn [propagate postorder]; unfold node_status;
    cbn [orb].
  - eexists. split; [done|]. by rewrite (right_id_L ∅ (∪)), size_singleton.
  - destruct (IH (<[name:=false]> scope)) as (X & -> & Hsize).
    eexists. split; [done|].
    rewrite size_with_root by apply Hunder.
    rewrite size_under, length_app, Hsize. simpl. lia.
  - destruct (propagate_locals_always_true _ IHl scope 0)
      as (scope' & b & X & Hl & Hsize).
    pose proof (elem_of_propagate_locals (propagate always_true)
                  locals scope 0) as Hm.
    rewrite Hl. rewrite Hl in Hm.
    destruct (IH scope') as (Xr & -> & Hsizer).
    eexists. split; [done|].
    rewrite size_with_root.
    + rewrite (comm_L (∪) X), size_under_union.
      * rewrite !length_app, Hsize, Hsizer. simpl. lia.
      * intros p Hp.
        destruct (Hm _ Hp) as (j & ? & ? & ? & q & Hj%lookup_lt_Some & -> & _).
        eexists _, _. split; [done|]. lia.
    + intros [Hp|Hp]%elem_of_union; [|by apply Hunder in Hp].
      by destruct (Hm _ Hp) as (j & _ & _ & _ & q & _ & [=] & _).
  - destruct (IHf scope) as (Xf & -> & Hsizef).
    destruct (IHa scope) as (Xa & -> & Hsizea).
    eexists. split; [done|].
    rewrite size_with_root.
    + rewrite size_under_union.
      * rewrite size_under, !length_app, Hsizef, Hsizea. simpl. lia.
      * intros p (q & -> & _)%elem_of_under. eexists _, _. split; [done|]. lia.
    + intros [Hp|Hp]%elem_of_union; by apply Hunder in Hp.
  - destruct (IH scope) as (X & -> & Hsize).
    eexists. split; [done|].
    rewrite size_with_root by apply Hunder.
    rewrite size_under, length_app, Hsize. simpl. lia.
  - destruct (propagate_elements_always_true scope _ IHe 0)
      as (b & X & He & Hsize).
    pose proof (elem_of_propagate_elements (propagate always_true scope)
                  elements 0) as Hm.
    rewrite He. rewrite He in Hm.
    eexists. split; [done|].
    rewrite size_with_root.
    + rewrite length_app, Hsize. simpl. lia.
    + intros Hp. by destruct (Hm _ Hp) as (j & _ & q & _ & [=] & _).
  - eexists. split; [done|]. by rewrite (right_id_L ∅ (∪)), size_singleton.
  - eexists. split; [done|]. by rewrite (right_id_L ∅ (∪)), size_singleton.
Qed.
End AllMatch.
End PropagationFacts.

(** ** The extraction entry points *)

Section ExtractionFacts.
Import transformation_utils dependence.

Lemma _consult_read_only predicate : read_only (_consult predicate).
Proof.
  intros comp s. unfold _consult. by destruct (py_call predicate comp).
Qed.

Lemma visit_all_consult p l s tr :
  visit_all (_consult (py_predicate p)) l s tr = (Ok s, tr ++ l).
Proof.
  revert tr. induction l as [|comp l IH]; intros tr; simpl.
  - by rewrite app_nil_r.
  - by rewrite IH, <- app_assoc.
Qed.

Lemma extract_predicate tree p w :
  extract_nodes_dependent_on_predicate (PyComp tree) (py_predicate p) w
  = (Ok (dependent_nodes p tree),
     World (visited w ++ postorder tree) (created w)).
Proof.
  unfold extract_nodes_dependent_on_predicate.
  cbn [py_typecheck.check_type_ComputationBuildingBlock
       py_typecheck.check_callable py_predicate].
  unfold mbind, T_mbind, T_bind, T_ret.
  rewrite (transform_postorder_read_only _ (_consult_read_only _)).
  change (PyFunction (λ comp, Ok (p comp))) with (py_predicate p).
  by rewrite visit_all_consult.
Qed.

Lemma elem_of_node_status predicate comp b X p :
  p ∈ (node_status predicate comp b X).2
  ↔ (p = [] ∧ predicate comp || b = true) ∨ p ∈ X.
Proof.
  unfold node_status. cbn [snd]. rewrite elem_of_union.
  destruct (predicate comp || b).
  - rewrite elem_of_singleton. intuition.
  - rewrite elem_of_empty. intuition discriminate.
Qed.
End ExtractionFacts.

(** C4. For every tree, [extract_nodes_dependent_on_predicate(tree,
    always-false)] returns the empty set. *)
Theorem extract_always_false_is_empty (tree : ComputationBuildingBlock) :
  run (dependence.extract_nodes_dependent_on_predicate
         (PyComp tree) (py_predicate (λ _, false)))
  = (Ok ∅, postorder tree).
Proof.
  unfold run. rewrite extract_predicate. cbn [visited app]. unfold dependence.dependent_nodes.
  rewrite propagate_no_match; [done| |].
  - by apply Forall_forall.
  - intros name. by rewrite lookup_empty.
Qed.

(** C3. For every tree, the set returned by
    [extract_nodes_dependent_on_predicate(tree, always-true)] has exactly
    [count(tree)] elements. *)
Theorem extract_always_true_has_count_elements (tree : ComputationBuildingBlock) :
  ∃ (X : gset path) (n : Z),
    (run (dependence.extract_nodes_dependent_on_predicate
            (PyComp tree) (py_predicate (λ _, true)))).1 = Ok X
    ∧ (run (tree_analysis.count (PyComp tree) PyNone)).1 = Ok n
    ∧ Z.of_nat (size X) = n.
Proof.
  destruct (propagate_always_true tree ∅) as (X & HX & Hsize).
  exists X, (Z.of_nat (length (postorder tree))).
  unfold run. rewrite extract_predicate. cbn [visited app]. fold (run (tree_analysis.count (PyComp tree) PyNone)).
  rewrite count_None. unfold dependence.dependent_nodes. rewrite HX.
  repeat split. cbn [snd]. by rewrite Hsize.
Qed.

(** ** Scenarios *)

(** C1. On [Block([("x", Intrinsic("dummy"))], Reference("x"))] with the
    predicate "identifier == dummy", the dependent set is exactly the Block
    node, the local's Intrinsic value and the result Reference("x"): the
    dependency flows from the local's value through the binding of "x" into
    the reference. *)
Theorem extract_block_local_flows_into_reference (t_local t_ref t_block : Type_spec) :
  let value := Intrinsic "dummy" t_local in
  let reference := Reference "x" t_ref in
  let block := Block [("x", value)] reference t_block in
  ∃ X : gset path,
    (run (dependence.extract_nodes_dependent_on_predicate
            (PyComp block) (py_predicate (has_identifier "dummy")))).1 = Ok X
    ∧ X = {[ []; [0%nat]; [1%nat] ]}
    ∧ size X = 3%nat
    ∧ node_at [] block = Some block
    ∧ node_at [0%nat] block = Some value
    ∧ node_at [1%nat] block = Some reference.
Proof.
  intros value reference block. exists {[ []; [0%nat]; [1%nat] ]}.
  unfold run. rewrite extract_predicate. cbn [visited app].
  split; by vm_compute.
Qed.

(** The tests of [NodesDependentOnPredicateTest]: the predicate is "an
    Intrinsic named dummy_intrinsic", and the node each test looks for is in
    the dependent set. *)
Section PropagationTests.
Import dependence.

Example test_propogates_dependence_up_through_lambda :
  [] ∈ dependent_nodes dummy_intrinsic_predicate
         (Lambda "x" int32 dummy_intrinsic (FunctionType int32 int32)).
Proof. by vm_compute. Qed.

Example test_propogates_dependence_up_through_block_result :
  dependent_nodes dummy_intrinsic_predicate
    (Block [("x", integer_reference)] dummy_intrinsic int32)
  = {[ []; [1%nat] ]}.
Proof. by vm_compute. Qed.

Example test_propogates_dependence_up_through_block_locals :
  [] ∈ dependent_nodes dummy_intrinsic_predicate
         (Block [("x", dummy_intrinsic)] integer_reference int32).
Proof. by vm_compute. Qed.

Example test_propogates_dependence_up_through_tuple :
  [] ∈ dependent_nodes dummy_intrinsic_predicate
         (Tuple [integer_reference; dummy_intrinsic] (NamedTupleType [int32; int32])).
Proof. by vm_compute. Qed.

Example test_propogates_dependence_up_through_selection :
  [] ∈ dependent_nodes dummy_intrinsic_predicate
         (Selection (Intrinsic "dummy_intrinsic" (NamedTupleType [int32])) 0 int32).
Proof. by vm_compute. Qed.

Example test_propogates_dependence_up_through_call :
  [] ∈ dependent_nodes dummy_intrinsic_predicate
         (Call (Lambda "x" int32 (Reference "x" int32) (FunctionType int32 int32))
               dummy_intrinsic int32).
Proof. by vm_compute. Qed.

(** An inner binding shadows an outer one: the reference to the rebound "x"
    is not dependent, the reference to "y" bound before the rebinding is. *)
Example shadowing_is_lexical :
  dependent_nodes dummy_intrinsic_predicate
    (Block [("x", dummy_intrinsic);
            ("y", Reference "x" int32);
            ("x", integer_reference)]
           (Tuple [Reference "x" int32; Reference "y" int32]
                  (NamedTupleType [int32; int32]))
           (NamedTupleType [int32; int32]))
  = {[ []; [0%nat]; [1%nat]; [3%nat]; [3%nat; 1%nat] ]}.
Proof. by vm_compute. Qed.
End PropagationTests.

Section OrderingFacts.
Import dependence intrinsic_defs.

Lemma is_broadcast_run tree w :
  is_broadcast_dependent_on_aggregate (PyComp tree) w =
  (let examples : gset path :=
     filter (λ p, is_broadcast_at tree p = true)
            (dependent_nodes aggregate_predicate tree) in
   (Ok (bool_decide (examples ≠ ∅), examples),
    World (visited w ++ postorder tree) (created w))).
Proof.
  unfold is_broadcast_dependent_on_aggregate.
  cbn [py_typecheck.check_type_ComputationBuildingBlock].
  unfold mbind, T_mbind, T_bind, T_ret. by rewrite extract_predicate.
Qed.

Lemma propagate_Call predicate scope fn arg ty :
  propagate predicate scope (Call fn arg ty)
  = node_status predicate (Call fn arg ty)
      ((propagate predicate scope fn).1 || (propagate predicate scope arg).1)
      (under 0 (propagate predicate scope fn).2
       ∪ under 1 (propagate predicate scope arg).2).
Proof.
  cbn [propagate].
  by destruct (propagate predicate scope fn), (propagate predicate scope arg).
Qed.

Lemma propagate_Intrinsic predicate scope uri ty :
  propagate predicate scope (Intrinsic uri ty)
  = node_status predicate (Intrinsic uri ty) false ∅.
Proof. done. Qed.

(** In broadcast(aggregate(arg)) the aggregate call and the broadcast call
    around it are dependent. *)
Lemma dependent_nodes_broadcast_of_aggregate arg tb ta t1 t2 p :
  p ∈ dependent_nodes aggregate_predicate
        (Call (Intrinsic FEDERATED_BROADCAST_uri tb)
              (Call (Intrinsic FEDERATED_AGGREGATE_uri ta) arg t1) t2)
  ↔ p = [] ∨ p = [1%nat]
    ∨ ∃ q, p = 1%nat :: 1%nat :: q
           ∧ q ∈ (propagate aggregate_predicate ∅ arg).2.
Proof.
  unfold dependent_nodes. rewrite !propagate_Call, !propagate_Intrinsic.
  rewrite elem_of_node_status, elem_of_union, !elem_of_under.
  setoid_rewrite elem_of_node_status.
  setoid_rewrite elem_of_union. setoid_rewrite elem_of_under.
  setoid_rewrite elem_of_node_status.
  setoid_rewrite elem_of_empty.
  unfold node_status. cbn [fst snd].
  change (aggregate_predicate (Call (Intrinsic FEDERATED_AGGREGATE_uri ta) arg t1))
    with true.
  change (aggregate_predicate (Intrinsic FEDERATED_AGGREGATE_uri ta)) with false.
  change (aggregate_predicate (Intrinsic FEDERATED_BROADCAST_uri tb)) with false.
  cbn [orb]. split.
  - intros [[-> _]|[(q & -> & [[_ [=]]|[]])|(q & -> & Hq)]]; [by left|].
    destruct Hq as [[-> _]|[(q' & -> & [[_ [=]]|[]])|(q' & -> & Hq')]];
      [by right; left|].
    right; right. by exists q'.
  - intros [->|[->|(q & -> & Hq)]].
    + left. split; [done|]. by rewrite orb_true_r.
    + right; right. exists []. split; [done|]. by left.
    + right; right. eexists. split; [done|].
      right; right. by exists q.
Qed.
End OrderingFacts.

Section ShapeFacts.
Import dependence intrinsic_defs.
Local Open Scope nat_scope.

Lemma elem_of_propagate_elements_iff f l i p :
  p ∈ (propagate_elements f l i).2
  ↔ ∃ j child q, l !! j = Some child ∧ p = (i + j) :: q ∧ q ∈ (f child).2.
Proof.
  split; [apply elem_of_propagate_elements|].
  revert i. induction l as [|value l IH]; intros i (j & child & q & Hj & -> & Hq);
    [done|].
  cbn [propagate_elements].
  destruct (f value) as [bv Xv] eqn:Hv.
  destruct (propagate_elements f l (S i)) as [bl Xl] eqn:Hl.
  cbn [snd]. apply elem_of_union. destruct j as [|j].
  - left. injection Hj as ->. rewrite Hv in Hq.
    apply elem_of_under. exists q. by rewrite Nat.add_0_r.
  - right. specialize (IH (S i)). rewrite Hl in IH. apply IH.
    exists j, child, q. split; [done|]. split; [|done]. f_equal. lia.
Qed.

Lemma is_broadcast_at_child tree i child q :
  children tree !! i = Some child →
  is_broadcast_at tree (i :: q) = is_broadcast_at child q.
Proof. intros Hi. unfold is_broadcast_at. cbn [node_at]. by rewrite Hi. Qed.

Lemma is_broadcast_result tree :
  (run (is_broadcast_dependent_on_aggregate (PyComp tree))).1
  = Ok (bool_decide (dependent_broadcasts tree ≠ ∅), dependent_broadcasts tree).
Proof. unfold run. by rewrite is_broadcast_run. Qed.

Lemma is_broadcast_result_none tree :
  (run (is_broadcast_dependent_on_aggregate (PyComp tree))).1 = Ok (false, ∅)
  ↔ dependent_broadcasts tree = ∅.
Proof.
  rewrite is_broadcast_result. split.
  - by intros [= _ ->].
  - intros ->. by rewrite bool_decide_eq_false_2 by (by intros []).
Qed.

(** The dependent broadcast calls of a Call: the call itself when it is a
    broadcast call that is dependent, and those of its function and of its
    argument. *)
Lemma dependent_broadcasts_Call fn arg ty p :
  p ∈ dependent_broadcasts (Call fn arg ty)
  ↔ (p = [] ∧ broadcast_predicate (Call fn arg ty) = true
            ∧ aggregate_predicate (Call fn arg ty)
              || (depends_on_aggregate fn || depends_on_aggregate arg) = true)
    ∨ (∃ q, p = 0 :: q ∧ q ∈ dependent_broadcasts fn)
    ∨ (∃ q, p = 1 :: q ∧ q ∈ dependent_broadcasts arg).
Proof.
  unfold dependent_broadcasts, dependent_nodes, depends_on_aggregate.
  rewrite elem_of_filter, propagate_Call, elem_of_node_status, elem_of_union.
  rewrite !elem_of_under. setoid_rewrite elem_of_filter. split.
  - intros [Hb [[-> Hs]|[(q & -> & Hq)|(q & -> & Hq)]]].
    + left. by repeat split.
    + right; left. exists q.
      by rewrite (is_broadcast_at_child _ _ fn) in Hb by done.
    + right; right. exists q.
      by rewrite (is_broadcast_at_child _ _ arg) in Hb by done.
  - intros [(-> & Hb & Hs)|[(q & -> & Hb & Hq)|(q & -> & Hb & Hq)]].
    + split; [done|]. by left.
    + split; [by rewrite (is_broadcast_at_child _ _ fn) by done|].
      right; left. by exists q.
    + split; [by rewrite (is_broadcast_at_child _ _ arg) by done|].
      right; right. by exists q.
Qed.

Lemma dependent_broadcasts_Intrinsic uri ty :
  dependent_broadcasts (Intrinsic uri ty) = ∅.
Proof.
  apply set_eq. intros p. unfold dependent_broadcasts, dependent_nodes.
  rewrite elem_of_filter, propagate_Intrinsic, elem_of_node_status.
  rewrite !elem_of_empty. split; [|done].
  by intros [Hb [[-> [=]]|[]]].
Qed.

Lemma depends_on_aggregate_aggregate arg ta t :
  depends_on_aggregate (Call (Intrinsic FEDERATED_AGGREGATE_uri ta) arg t) = true.
Proof. unfold depends_on_aggregate. by rewrite propagate_Call. Qed.

(** aggregate(arg): the aggregate call is no broadcast call. *)
Lemma dependent_broadcasts_aggregate arg ta t :
  dependent_broadcasts (Call (Intrinsic FEDERATED_AGGREGATE_uri ta) arg t)
  = under 1 (dependent_broadcasts arg).
Proof.
  apply set_eq. intros p.
  rewrite dependent_broadcasts_Call, dependent_broadcasts_Intrinsic, elem_of_under.
  setoid_rewrite elem_of_empty. split.
  - by intros [(_ & [=] & _)|[(q & _ & [])|Hq]].
  - intros Hq. by right; right.
Qed.

(** broadcast(value): the broadcast call is dependent when its value is. *)
Lemma dependent_broadcasts_broadcast value tb t :
  dependent_broadcasts (Call (Intrinsic FEDERATED_BROADCAST_uri tb) value t)
  = (if depends_on_aggregate value then {[ [] ]} else ∅)
    ∪ under 1 (dependent_broadcasts value).
Proof.
  apply set_eq. intros p.
  rewrite dependent_broadcasts_Call, dependent_broadcasts_Intrinsic.
  rewrite elem_of_union, elem_of_under.
  setoid_rewrite elem_of_empty.
  change (depends_on_aggregate (Intrinsic FEDERATED_BROADCAST_uri tb)) with false.
  change (aggregate_predicate (Call (Intrinsic FEDERATED_BROADCAST_uri tb) value t))
    with false.
  cbn [orb]. split.
  - intros [(-> & _ & ->)|[(q & _ & [])|Hq]]; [left|by right].
    by apply elem_of_singleton.
  - intros [Hp|Hq]; [|by right; right]. left.
    destruct (depends_on_aggregate value); [|by apply elem_of_empty in Hp].
    apply elem_of_singleton in Hp as ->. done.
Qed.

(** A Tuple is no call: its dependent broadcast calls are those of its
    elements. *)
Lemma dependent_broadcasts_Tuple elements ty p :
  p ∈ dependent_broadcasts (Tuple elements ty)
  ↔ ∃ i element q, elements !! i = Some element ∧ p = i :: q
                   ∧ q ∈ dependent_broadcasts element.
Proof.
  unfold dependent_broadcasts at 1, dependent_nodes. cbn [propagate].
  destruct (propagate_elements _ elements 0) as [b X] eqn:He.
  rewrite elem_of_filter, elem_of_node_status.
  pose proof (elem_of_propagate_elements_iff
                (propagate aggregate_predicate ∅) elements 0) as Hm.
  rewrite He in Hm. cbn [snd] in Hm. setoid_rewrite Hm. split.
  - intros [Hb [[-> _]|(i & element & q & Hi & -> & Hq)]]; [done|].
    exists i, element, q. repeat split; try done.
    apply elem_of_filter. split; [|done].
    by rewrite (is_broadcast_at_child _ _ element) in Hb by done.
  - intros (i & element & q & Hi & -> & [Hb Hq]%elem_of_filter). split.
    + by rewrite (is_broadcast_at_child _ _ element) by done.
    + right. by exists i, element, q.
Qed.

Lemma dependent_broadcasts_Tuple_empty elements ty :
  dependent_broadcasts (Tuple elements ty) = ∅
  ↔ Forall (λ element, dependent_broadcasts element = ∅) elements.
Proof.
  rewrite Forall_lookup. split.
  - intros Hempty i element Hi. apply set_eq. intros q.
    rewrite elem_of_empty. split; [|done]. intros Hq.
    assert (i :: q ∈ dependent_broadcasts (Tuple elements ty)) as Hin.
    { apply dependent_broadcasts_Tuple. by exists i, element, q. }
    rewrite Hempty in Hin. by apply elem_of_empty in Hin.
  - intros Hall. apply set_eq. intros p. rewrite elem_of_empty. split; [|done].
    intros (i & element & q & Hi & -> & Hq)%dependent_broadcasts_Tuple.
    rewrite (Hall i element Hi) in Hq. by apply elem_of_empty in Hq.
Qed.

Lemma under_eq_empty (i : nat) (X : gset path) : under i X = ∅ ↔ X = ∅.
Proof.
  split; [|intros ->; apply under_empty].
  intros Hempty. apply set_eq. intros q. rewrite elem_of_empty. split; [|done].
  intros Hq. assert (i :: q ∈ under i X) as Hin by (apply elem_of_under; eauto).
  rewrite Hempty in Hin. by apply elem_of_empty in Hin.
Qed.

(** The root of a subtree is in its dependent set exactly when its status is
    true. *)
Lemma root_dependent_iff predicate scope comp :
  [] ∈ (propagate predicate scope comp).2
  ↔ (propagate predicate scope comp).1 = true.
Proof.
  assert (Hstatus : ∀ c b (X : gset path),
             [] ∉ X →
             [] ∈ (node_status predicate c b X).2
             ↔ (node_status predicate c b X).1 = true).
  { intros c b X HX. rewrite elem_of_node_status. unfold node_status. cbn [fst].
    split; [by intros [[_ ?]|?] | by left]. }
  assert (Hunder : ∀ i X, [] ∉ under i X).
  { intros i X (q & [=] & _)%elem_of_under. }
  destruct comp as [name ty|name pty body ty|locals result ty|fn arg ty
                   |source index ty|elements ty|uri ty|uri ty];
    cbn [propagate].
  - apply Hstatus. by intros ?%elem_of_empty.
  - destruct (propagate predicate _ body) as [b X]. apply Hstatus, Hunder.
  - destruct (propagate_locals _ locals scope 0) as [[scope' b] X] eqn:Hl.
    destruct (propagate predicate scope' result) as [br Xr].
    apply Hstatus. intros [Hp|Hp]%elem_of_union; [|by apply Hunder in Hp].
    pose proof (elem_of_propagate_locals (propagate predicate)
                  locals scope 0 []) as Hm.
    rewrite Hl in Hm. by destruct (Hm Hp) as (? & ? & ? & ? & ? & _ & [=] & _).
  - destruct (propagate predicate scope fn) as [bf Xf].
    destruct (propagate predicate scope arg) as [ba Xa].
    apply Hstatus. intros [Hp|Hp]%elem_of_union; by apply Hunder in Hp.
  - destruct (propagate predicate scope source) as [b X]. apply Hstatus, Hunder.
  - destruct (propagate_elements _ elements 0) as [b X] eqn:He.
    apply Hstatus. intros Hp.
    pose proof (elem_of_propagate_elements (propagate predicate scope)
                  elements 0 []) as Hm.
    rewrite He in Hm. by destruct (Hm Hp) as (? & ? & ? & _ & [=] & _).
  - apply Hstatus. by intros ?%elem_of_empty.
  - apply Hstatus. by intros ?%elem_of_empty.
Qed.
End ShapeFacts.

(** C2, as the model has it. On broadcast(aggregate(arg)),
    [is_broadcast_dependent_on_aggregate] returns [true] and a set [X] that
    holds the broadcast call node at the root, together with the broadcast
    calls it finds dependent when run on [arg]: [X] has one element more than
    the set returned on [arg], so its size is exactly one exactly when the
    function returns [(false, empty)] on [arg]. On aggregate(broadcast(value),
    rest...) it returns [(false, empty)] exactly when [value] does not depend
    on an aggregate call and the function returns [(false, empty)] on [value]
    and on every further argument: the aggregate depends on the broadcast, and
    no broadcast depends on an aggregate. *)
Theorem is_broadcast_dependent_on_aggregate_shapes
    (arg value : ComputationBuildingBlock) (rest : list ComputationBuildingBlock)
    (tb ta t1 t2 tb' ta' t1' t2' t3' : Type_spec) :
  let is_broadcast_dependent tree :=
    (run (dependence.is_broadcast_dependent_on_aggregate (PyComp tree))).1 in
  let aggregate :=
    Call (Intrinsic intrinsic_defs.FEDERATED_AGGREGATE_uri ta) arg t1 in
  let broadcast_of_aggregate :=
    Call (Intrinsic intrinsic_defs.FEDERATED_BROADCAST_uri tb) aggregate t2 in
  let broadcast :=
    Call (Intrinsic intrinsic_defs.FEDERATED_BROADCAST_uri tb') value t1' in
  let aggregate_of_broadcast :=
    Call (Intrinsic intrinsic_defs.FEDERATED_AGGREGATE_uri ta')
         (Tuple (broadcast :: rest) t2') t3' in
  (∃ (b : bool) (Xarg X : gset path),
      is_broadcast_dependent arg = Ok (b, Xarg)
      ∧ is_broadcast_dependent broadcast_of_aggregate = Ok (true, X)
      ∧ [] ∈ X
      ∧ node_at [] broadcast_of_aggregate = Some broadcast_of_aggregate
      ∧ X = {[ [] ]} ∪ under 1 (under 1 Xarg)
      ∧ size X = S (size Xarg)
      ∧ (size X = 1%nat ↔ is_broadcast_dependent arg = Ok (false, ∅)))
  ∧ (is_broadcast_dependent aggregate_of_broadcast = Ok (false, ∅)
     ↔ ([] ∉ dependence.dependent_nodes dependence.aggregate_predicate value)
       ∧ is_broadcast_dependent value = Ok (false, ∅)
       ∧ Forall (λ element, is_broadcast_dependent element = Ok (false, ∅)) rest).
Proof.
  intros is_broadcast_dependent aggregate broadcast_of_aggregate broadcast
    aggregate_of_broadcast.
  subst is_broadcast_dependent. cbn beta. split.
  - exists (bool_decide (dependent_broadcasts arg ≠ ∅)), (dependent_broadcasts arg),
      ({[ [] ]} ∪ under 1 (under 1 (dependent_broadcasts arg))).
    assert (Hset : dependent_broadcasts broadcast_of_aggregate
                   = {[ [] ]} ∪ under 1 (under 1 (dependent_broadcasts arg))).
    { unfold broadcast_of_aggregate, aggregate.
      rewrite dependent_broadcasts_broadcast, dependent_broadcasts_aggregate.
      by rewrite depends_on_aggregate_aggregate. }
    assert (Hsize : size ({[ [] ]} ∪ under 1 (under 1 (dependent_broadcasts arg)))
                    = S (size (dependent_broadcasts arg))).
    { rewrite size_with_root, !size_under; [done|].
      by intros (q & [=] & _)%elem_of_under. }
    split; [apply is_broadcast_result|].
    split.
    { rewrite is_broadcast_result, Hset. do 2 f_equal.
      apply bool_decide_eq_true. intros Hempty.
      assert ([] ∈ (∅ : gset path)) as []%elem_of_empty.
      rewrite <- Hempty. apply elem_of_union. left. by apply elem_of_singleton. }
    split; [apply elem_of_union; left; by apply elem_of_singleton|].
    split; [done|]. split; [done|]. split; [done|].
    rewrite Hsize, is_broadcast_result_none. split.
    + intros [= Hzero]. by apply size_empty_iff, leibniz_equiv in Hzero.
    + intros ->. by rewrite size_empty.
  - rewrite !is_broadcast_result_none.
    unfold aggregate_of_broadcast. rewrite dependent_broadcasts_aggregate.
    rewrite under_eq_empty, dependent_broadcasts_Tuple_empty, Forall_cons.
    unfold broadcast. rewrite dependent_broadcasts_broadcast.
    unfold dependence.dependent_nodes.
    rewrite root_dependent_iff. fold (depends_on_aggregate value).
    assert (Hrest : Forall (λ element, dependent_broadcasts element = ∅) rest
                    ↔ Forall (λ element,
                         (run (dependence.is_broadcast_dependent_on_aggregate
                                 (PyComp element))).1 = Ok (false, ∅)) rest).
    { apply Forall_proper; [|done]. intros element.
      by rewrite is_broadcast_result_none. }
    rewrite <- Hrest. clear Hrest.
    destruct (depends_on_aggregate value); split.
    + intros [Hempty _]. assert ([] ∈ (∅ : gset path)) as []%elem_of_empty.
      rewrite <- Hempty. apply elem_of_union. left. by apply elem_of_singleton.
    + by intros [[] _].
    + intros [Hempty Hall]. split; [done|]. split; [|done].
      rewrite (left_id_L ∅ (∪)) in Hempty. by apply under_eq_empty in Hempty.
    + intros (_ & -> & Hall). split; [|done].
      by rewrite under_empty, (left_id_L ∅ (∪)).
Qed.

(** C2 fails as stated: a tree of shape broadcast(aggregate(...)) whose dots
    hold a further broadcast of an aggregate returns a set of size two, and a
    tree of shape aggregate(broadcast(...), ...) whose broadcast holds an
    aggregate returns [true]. *)
Lemma nested_broadcast_of_aggregate_returns_two_nodes :
  let bc value := Call (Intrinsic intrinsic_defs.FEDERATED_BROADCAST_uri int32) value int32 in
  let agg value := Call (Intrinsic intrinsic_defs.FEDERATED_AGGREGATE_uri int32) value int32 in
  let d := Data "data" int32 in
  (run (dependence.is_broadcast_dependent_on_aggregate
          (PyComp (bc (agg (bc (agg d))))))).1
  = Ok (true, {[ []; [1%nat; 1%nat] ]})
  ∧ size ({[ []; [1%nat; 1%nat] ]} : gset path) = 2%nat
  ∧ (run (dependence.is_broadcast_dependent_on_aggregate
            (PyComp (agg (Tuple [bc (agg d); d] int32))))).1
    = Ok (true, {[ [1%nat; 0%nat] ]}).
Proof. repeat split; by vm_compute. Qed.

(** The two trees of the tests: on broadcast(aggregate(...)) the function
    returns [true] and the broadcast call alone; on aggregate(broadcast(...),
    ...) it returns [false] and the empty set. *)
Example is_broadcast_dependent_on_aggregate_tests :
  (run (dependence.is_broadcast_dependent_on_aggregate
          (PyComp computation_test_utils.broadcasted_aggregate))).1
  = Ok (true, {[ [] ]})
  ∧ (run (dependence.is_broadcast_dependent_on_aggregate
            (PyComp computation_test_utils.aggregate_dependent_on_broadcast))).1
    = Ok (false, ∅).
Proof. split; by vm_compute. Qed.

(** On broadcast(aggregate(...)) the aggregate call is in the dependent set
    next to the broadcast call: the set returned with [true] is the part of
    the dependent set made of broadcast calls. *)
Lemma aggregate_call_is_dependent_too :
  [1%nat] ∈ dependence.dependent_nodes dependence.aggregate_predicate
              computation_test_utils.broadcasted_aggregate
  ∧ [] ∈ dependence.dependent_nodes dependence.aggregate_predicate
           computation_test_utils.broadcasted_aggregate.
Proof.
  split; apply dependent_nodes_broadcast_of_aggregate; [right; by left | by left].
Qed.

(** A count of the operators named "dummy" is at most the count of all
    operators. *)
Lemma count_monotone_witness :
  let tree := Tuple [Data "data" int32; Intrinsic "dummy" int32] (NamedTupleType []) in
  ∃ np nq nall : Z,
    (run (tree_analysis.count (PyComp tree)
            (py_predicate (has_identifier "dummy")))).1 = Ok np
    ∧ (run (tree_analysis.count (PyComp tree)
              (py_predicate (λ comp, instance_of comp cls_Intrinsic)))).1 = Ok nq
    ∧ (run (tree_analysis.count (PyComp tree) PyNone)).1 = Ok nall
    ∧ np ≤ nq
    ∧ 0 ≤ np ≤ nall.
Proof.
  apply count_monotone. intros node. by destruct node.
Defined.

(** ** Read-only traversals and argument checks *)

Section CreationFacts.
Import transformation_utils tree_analysis dependence.

Lemma creates_nothing_ret {A} (a : A) : creates_nothing (T_ret a).
Proof. by intros w. Qed.

Lemma creates_nothing_raise {A} (e : exn) : creates_nothing (@T_raise A e).
Proof. by intros w. Qed.

Lemma creates_nothing_bind {A B} (m : T A) (k : A → T B) :
  creates_nothing m → (∀ a, creates_nothing (k a)) → creates_nothing (m ≫= k).
Proof.
  intros Hm Hk w. unfold mbind, T_mbind, T_bind. specialize (Hm w).
  destruct (m w) as [[a|e] w']; cbn [snd] in *; [|done].
  by rewrite Hk.
Qed.

Lemma creates_nothing_check_type target :
  creates_nothing (py_typecheck.check_type_ComputationBuildingBlock target).
Proof. destruct target; by intros w. Qed.

Lemma creates_nothing_check_placement target :
  creates_nothing (py_typecheck.check_type_PlacementLiteral target).
Proof. destruct target; by intros w. Qed.

Lemma creates_nothing_check_callable target :
  creates_nothing (py_typecheck.check_callable target).
Proof. destruct target; by intros w. Qed.

(** A traversal with a read-only visitor makes no node. *)
Lemma creates_nothing_traversal {S : Type} (transform : visitor S) tree s :
  read_only transform → creates_nothing (transform_postorder transform tree s).
Proof.
  intros Hro w. rewrite (transform_postorder_read_only _ Hro).
  by destruct (visit_all transform (postorder tree) s (visited w)) as [[s'|e] tr'].
Qed.

Lemma read_only_unchanged {S : Type} (transform : visitor S)
    (tree : ComputationBuildingBlock) (s : S) (w : world) :
  read_only transform →
  unchanged tree (transform_postorder transform tree s w).
Proof.
  intros Hro. rewrite (transform_postorder_read_only _ Hro). unfold unchanged.
  by destruct (visit_all transform (postorder tree) s (visited w)) as [[s'|e] tr'].
Qed.

Lemma _transform_read_only : read_only _transform.
Proof. intros comp s. by destruct comp. Qed.

Lemma creates_nothing_count comp predicate : creates_nothing (count comp predicate).
Proof.
  apply creates_nothing_bind; [apply creates_nothing_check_type|]. intros tree.
  apply creates_nothing_bind.
  - apply creates_nothing_traversal, _function_read_only.
  - intros [[? ?] ?]. apply creates_nothing_ret.
Qed.

Lemma creates_nothing_extract tree predicate :
  creates_nothing (extract_nodes_dependent_on_predicate tree predicate).
Proof.
  apply creates_nothing_bind; [apply creates_nothing_check_type|]. intros comp.
  apply creates_nothing_bind; [apply creates_nothing_check_callable|]. intros f.
  apply creates_nothing_bind.
  - apply creates_nothing_traversal, _consult_read_only.
  - intros _. apply creates_nothing_ret.
Qed.

(** [check_has_unique_names] makes no node beyond what its oracle makes. *)
Lemma creates_nothing_check_has_unique_names oracle comp :
  creates_nothing (oracle comp) →
  creates_nothing (check_has_unique_names oracle comp).
Proof.
  intros Horacle. apply creates_nothing_bind; [done|].
  intros []; [apply creates_nothing_ret | apply creates_nothing_raise].
Qed.

Lemma creates_nothing_has_unique_names comp :
  creates_nothing (has_unique_names comp).
Proof.
  apply creates_nothing_bind; [apply creates_nothing_check_type|]. intros tree.
  apply creates_nothing_bind.
  - apply creates_nothing_traversal, _transform_read_only.
  - intros [[? ?] [? ?]]. apply creates_nothing_ret.
Qed.
End CreationFacts.

(** The creation log is not idle: a visitor that substitutes a leaf makes the
    engine rebuild every ancestor of that leaf, and each of these nodes is
    logged. *)
Example substituting_visitor_creates_nodes :
  let leaf := Data "data" int32 in
  let tree := Tuple [Reference "x" int32; Selection leaf 0 int32] int32 in
  (transformation_utils.transform_postorder renaming_visitor tree ()
     (World [] [])).2
  = World [Reference "x" int32; leaf;
           Selection (Data "renamed" int32) 0 int32;
           Tuple [Reference "x" int32; Selection (Data "renamed" int32) 0 int32] int32]
          [Data "renamed" int32;
           Selection (Data "renamed" int32) 0 int32;
           Tuple [Reference "x" int32; Selection (Data "renamed" int32) 0 int32] int32].
Proof. done. Qed.

(** C8. Every analysis is read-only. For every operation of the library
    ([count], [count_types], [check_has_single_placement],
    [check_intrinsics_whitelisted_for_reduction], [check_has_unique_names],
    [extract_nodes_dependent_on_predicate] and
    [is_broadcast_dependent_on_aggregate]) and every argument, the call makes
    no node: no visitor substitutes a node and the engine rebuilds no parent,
    so the caller is left with the very tree it passed in. This holds because
    each internal visitor returns the node it was handed and requests no
    substitution, so that each traversal hands back the input tree itself,
    unmodified. *)
Theorem analyses_are_read_only
    (compact_representation : ComputationBuildingBlock → string)
    (placement_str : PlacementLiteral → string)
    (comp other : pyobj) (tree : ComputationBuildingBlock) :
  (creates_nothing (tree_analysis.count comp other)
   ∧ creates_nothing (tree_analysis.count_types comp other)
   ∧ creates_nothing (tree_analysis.check_has_single_placement
                        compact_representation placement_str comp other)
   ∧ creates_nothing (tree_analysis.check_intrinsics_whitelisted_for_reduction
                        compact_representation comp)
   ∧ creates_nothing (tree_analysis.check_has_unique_names
                        transformation_utils.has_unique_names comp)
   ∧ creates_nothing (dependence.extract_nodes_dependent_on_predicate comp other)
   ∧ creates_nothing (dependence.is_broadcast_dependent_on_aggregate comp))
  ∧ ((∀ predicate, read_only (tree_analysis._function predicate))
     ∧ (∀ required, read_only (tree_analysis._check_single_placement
                                 compact_representation placement_str required))
     ∧ read_only (tree_analysis._check_whitelisted compact_representation)
     ∧ read_only transformation_utils._transform
     ∧ (∀ predicate, read_only (dependence._consult predicate)))
  ∧ ((∀ predicate counter w,
        unchanged tree (transformation_utils.transform_postorder
                          (tree_analysis._function predicate) tree counter w))
     ∧ (∀ required s w,
          unchanged tree (transformation_utils.transform_postorder
                            (tree_analysis._check_single_placement
                               compact_representation placement_str required)
                            tree s w))
     ∧ (∀ s w,
          unchanged tree (transformation_utils.transform_postorder
                            (tree_analysis._check_whitelisted compact_representation)
                            tree s w))
     ∧ (∀ s w,
          unchanged tree (transformation_utils.transform_postorder
                            transformation_utils._transform tree s w))
     ∧ (∀ predicate s w,
          unchanged tree (transformation_utils.transform_postorder
                            (dependence._consult predicate) tree s w))).
Proof.
  assert (Hplacement : ∀ required,
             read_only (tree_analysis._check_single_placement
                          compact_representation placement_str required)).
  { intros required. eapply checking_read_only.
    apply _check_single_placement_checking. }
  assert (Hwhitelist :
             read_only (tree_analysis._check_whitelisted compact_representation)).
  { eapply checking_read_only. apply _check_whitelisted_checking. }
  repeat apply conj.
  - apply creates_nothing_count.
  - apply creates_nothing_count.
  - apply creates_nothing_bind; [apply creates_nothing_check_type|]. intros c.
    apply creates_nothing_bind; [apply creates_nothing_check_placement|].
    intros required. apply creates_nothing_bind.
    + apply creates_nothing_traversal, Hplacement.
    + intros _. apply creates_nothing_ret.
  - apply creates_nothing_bind; [apply creates_nothing_check_type|]. intros c.
    apply creates_nothing_bind.
    + apply creates_nothing_traversal, Hwhitelist.
    + intros _. apply creates_nothing_ret.
  - apply creates_nothing_check_has_unique_names, creates_nothing_has_unique_names.
  - apply creates_nothing_extract.
  - apply creates_nothing_bind; [apply creates_nothing_check_type|]. intros c.
    apply creates_nothing_bind; [apply creates_nothing_extract|].
    intros X. apply creates_nothing_ret.
  - apply _function_read_only.
  - apply Hplacement.
  - apply Hwhitelist.
  - apply _transform_read_only.
  - apply _consult_read_only.
  - intros. apply read_only_unchanged, _function_read_only.
  - intros. apply read_only_unchanged, Hplacement.
  - intros. apply read_only_unchanged, Hwhitelist.
  - intros. apply read_only_unchanged, _transform_read_only.
  - intros. apply read_only_unchanged, _consult_read_only.
Qed.

Section ArgumentFacts.
Import transformation_utils tree_analysis.

Lemma postorder_first comp : ∃ first rest, postorder comp = first :: rest.
Proof.
  induction comp as [name ty|name pty result ty IH|locals result ty IHl IH
                    |fn arg ty IHf IHa|source index ty IH|elements ty IHe
                    |uri ty|uri ty] using building_block_ind;
    cbn [postorder]; try by eexists _, _.
  - destruct IH as (first & rest & ->). by eexists _, _.
  - destruct locals as [|[name value] locals]; cbn [flat_map].
    + destruct IH as (first & rest & ->). by eexists _, _.
    + apply Forall_inv in IHl as (first & rest & Hv). simpl in Hv.
      rewrite Hv. by eexists _, _.
  - destruct IHf as (first & rest & ->). by eexists _, _.
  - destruct IH as (first & rest & ->). by eexists _, _.
  - destruct elements as [|value elements]; cbn [flat_map].
    + by eexists _, _.
    + apply Forall_inv in IHe as (first & rest & ->). by eexists _, _.
Qed.

End ArgumentFacts.




(** ** Further properties of the node counter *)

Section MoreCountFacts.
Import transformation_utils tree_analysis.

Lemma matching_zero p l :
  matching p l = 0 ↔ Forall (λ comp, p comp = false) l.
Proof.
  induction l as [|comp l IH]; [by split|].
  rewrite matching_cons, Forall_cons, <- IH.
  pose proof (matching_nonneg p l). destruct (p comp); split.
  - lia.
  - by intros [[=] _].
  - intros. split; [done | lia].
  - intros [_ ->]. done.
Qed.

Lemma count_zero_iff_no_match_aux tree p :
  Forall (λ comp, p comp = false) (postorder tree)
  ↔ (run (count (PyComp tree) (py_predicate p))).1 = Ok 0.
Proof.
  rewrite count_predicate. cbn [fst]. rewrite <- matching_zero.
  split; [by intros -> | by intros [= ->]].
Qed.

Lemma matching_ext p q l :
  Forall (λ comp, p comp = q comp) l → matching p l = matching q l.
Proof.
  induction 1 as [|comp l Hpq _ IH]; [done|].
  by rewrite !matching_cons, IH, Hpq.
Qed.

Lemma postorder_node_at p : ∀ tree sub,
  node_at p tree = Some sub → ∀ n, n ∈ postorder sub → n ∈ postorder tree.
Proof.
  induction p as [|i p IH]; intros tree sub Hat n Hn; cbn [node_at] in Hat.
  - by injection Hat as <-.
  - destruct (children tree !! i) as [child|] eqn:Hi; [|done].
    cbn in Hat. apply (elem_of_postorder_child (λ _, true) tree i child n Hi). by eapply IH.
Qed.

Lemma _function_call f comp counter :
  _function (PyFunction f) comp counter
  = match f comp with
    | Ok b => Ok (comp, false, counter + (if b then 1 else 0))
    | Raise e => Raise e
    end.
Proof.
  unfold _function, py_call. destruct (f comp) as [[|]|e]; try done.
  by rewrite Z.add_0_r.
Qed.

(** A predicate is called on the nodes in postorder until a call raises. *)
Lemma visit_all_function_raising f l : ∀ counter tr,
  match list_find (λ comp, raises (f comp) = true) l with
  | Some (i, node) =>
      ∃ e, f node = Raise e
           ∧ visit_all (_function (PyFunction f)) l counter tr
             = (Raise e, tr ++ take (S i) l)
  | None =>
      visit_all (_function (PyFunction f)) l counter tr
      = (Ok (counter + matching (dependence.truth (PyFunction f)) l), tr ++ l)
  end.
Proof.
  induction l as [|comp l IH]; intros counter tr.
  - cbn. by rewrite Z.add_0_r, app_nil_r.
  - cbn [list_find visit_all]. rewrite matching_cons, _function_call.
    unfold dependence.truth at 1. cbn [py_call].
    destruct (f comp) as [b|e] eqn:Hf; cbn [raises]; case_decide; try done.
    + specialize (IH (counter + (if b then 1 else 0)) (tr ++ [comp])).
      destruct (list_find _ l) as [[i node]|]; cbn.
      * destruct IH as (e & He & IH). exists e. split; [done|].
        by rewrite IH, <- app_assoc.
      * rewrite IH, <- app_assoc. do 2 f_equal. lia.
    + exists e. done.
Qed.
End MoreCountFacts.

(** X1. [count] splits over the root and its children: the count of a tree
    is the sum of the counts of its direct children, plus one when the root
    itself matches the predicate. *)
Theorem count_sums_over_children (tree : ComputationBuildingBlock)
    (p : ComputationBuildingBlock → bool) :
  ∃ ns : list Z,
    Forall2 (λ child n,
               (run (tree_analysis.count (PyComp child) (py_predicate p))).1 = Ok n)
            (children tree) ns
    ∧ (run (tree_analysis.count (PyComp tree) (py_predicate p))).1
      = Ok (total ns + (if p tree then 1 else 0)).
Proof.
  exists ((λ child, matching p (postorder child)) <$> children tree). split.
  - apply Forall2_fmap_r, Forall_Forall2_diag, Forall_forall.
    intros child _. by rewrite count_predicate.
  - rewrite count_predicate, postorder_children, matching_app, matching_concat.
    rewrite <- list_fmap_compose, matching_cons.
    change (matching p []) with 0. rewrite Z.add_0_r. done.
Qed.

(** X2. A predicate and its negation split the nodes:
    [count(tree, p) + count(tree, not p) = count(tree)]. *)
Theorem count_complement (tree : ComputationBuildingBlock)
    (p : ComputationBuildingBlock → bool) :
  ∃ np nn nall : Z,
    (run (tree_analysis.count (PyComp tree) (py_predicate p))).1 = Ok np
    ∧ (run (tree_analysis.count (PyComp tree)
              (py_predicate (λ comp, negb (p comp))))).1 = Ok nn
    ∧ (run (tree_analysis.count (PyComp tree) PyNone)).1 = Ok nall
    ∧ np + nn = nall.
Proof.
  eexists _, _, _. rewrite !count_predicate, count_None.
  repeat split. induction (postorder tree) as [|comp l IH]; [done|].
  rewrite !matching_cons. simpl length. destruct (p comp); cbn [negb]; lia.
Qed.

(** X3. [count(tree, p)] is 0 exactly when no node of the tree matches [p]. *)
Theorem count_zero_iff_no_match (tree : ComputationBuildingBlock)
    (p : ComputationBuildingBlock → bool) :
  (run (tree_analysis.count (PyComp tree) (py_predicate p))).1 = Ok 0
  ↔ ∀ node, node ∈ postorder tree → p node = false.
Proof.
  rewrite count_predicate. cbn [fst]. rewrite <- Forall_forall, <- matching_zero.
  split; [by intros [= ->] | by intros ->].
Qed.

(** X4. A tree has at least one node: [count(tree)] is never 0, and it is 1
    exactly on a tree without children. *)
Theorem count_at_least_one (tree : ComputationBuildingBlock) :
  ∃ n : Z,
    (run (tree_analysis.count (PyComp tree) PyNone)).1 = Ok n
    ∧ 1 ≤ n
    ∧ (n = 1 ↔ children tree = []).
Proof.
  eexists. rewrite count_None. split; [done|].
  rewrite postorder_children, length_app. cbn [length]. split; [lia|].
  destruct (children tree) as [|child l]; [done|].
  split; [|done]. cbn [fmap list_fmap concat]. rewrite !length_app.
  destruct (postorder_first child) as (first & rest & ->). cbn [length]. lia.
Qed.

(** X5. When the predicate raises on some node, [count] raises that
    exception at the first such node in postorder: no later node is visited
    and no count is returned. When it raises on no node, every node is
    visited once, in postorder. *)
Theorem count_stops_at_first_raising_call (tree : ComputationBuildingBlock)
    (f : ComputationBuildingBlock → res bool) :
  match list_find (λ comp, raises (f comp) = true) (postorder tree) with
  | Some (i, node) =>
      ∃ e, f node = Raise e
           ∧ run (tree_analysis.count (PyComp tree) (PyFunction f))
             = (Raise e, take (S i) (postorder tree))
  | None =>
      run (tree_analysis.count (PyComp tree) (PyFunction f))
      = (Ok (matching (λ comp, match f comp with Ok b => b | Raise _ => false end)
                      (postorder tree)),
         postorder tree)
  end.
Proof.
  pose proof (visit_all_function_raising f (postorder tree) 0 []) as Hvisit.
  unfold run, tree_analysis.count.
  cbn [py_typecheck.check_type_ComputationBuildingBlock].
  unfold mbind, T_mbind, T_bind, T_ret.
  rewrite (transform_postorder_read_only _ (_function_read_only _)).
  cbn [visited created].
  destruct (list_find _ (postorder tree)) as [[i node]|].
  - destruct Hvisit as (e & He & ->). by exists e.
  - by rewrite Hvisit.
Qed.

Section CountTypesFacts.
Import tree_analysis.

Lemma count_types_classes tree clss :
  run (count_types (PyComp tree) (PyClasses clss))
  = (Ok (matching (λ comp, existsb (instance_of comp) clss) (postorder tree)),
     postorder tree).
Proof. exact (count_predicate tree (λ comp, existsb (instance_of comp) clss)). Qed.

Lemma count_types_class tree cls :
  run (count_types (PyComp tree) (PyClass cls))
  = (Ok (matching (λ comp, instance_of comp cls) (postorder tree)), postorder tree).
Proof. exact (count_predicate tree (λ comp, instance_of comp cls)). Qed.
End CountTypesFacts.

(** X6. Edge cases of [count_types]: with the empty tuple of classes it
    returns 0 (after visiting every node); with the base class
    [ComputationBuildingBlock] it returns [count(tree)]; a single class and
    the one-element tuple holding it give the same count. *)
Theorem count_types_edge_cases (tree : ComputationBuildingBlock) (cls : pyclass) :
  run (tree_analysis.count_types (PyComp tree) (PyClasses []))
  = (Ok 0, postorder tree)
  ∧ run (tree_analysis.count_types (PyComp tree) (PyClass cls_ComputationBuildingBlock))
    = run (tree_analysis.count (PyComp tree) PyNone)
  ∧ run (tree_analysis.count_types (PyComp tree) (PyClass cls))
    = run (tree_analysis.count_types (PyComp tree) (PyClasses [cls])).
Proof.
  rewrite !count_types_classes, !count_types_class, count_None. repeat split.
  - do 2 f_equal. apply matching_zero, Forall_forall. done.
  - do 2 f_equal. apply matching_true.
  - do 2 f_equal. apply matching_ext, Forall_forall. intros comp _.
    cbn [existsb]. by rewrite orb_false_r.
Qed.

(** X7. [count_types] grows with the tuple of classes: when every class of
    [clss] is in [clss'], the count for [clss] is at most the count for
    [clss'], which is at most [count(tree)]. *)
Theorem count_types_monotone (tree : ComputationBuildingBlock)
    (clss clss' : list pyclass) (Hsub : clss ⊆ clss') :
  ∃ n n' nall : Z,
    (run (tree_analysis.count_types (PyComp tree) (PyClasses clss))).1 = Ok n
    ∧ (run (tree_analysis.count_types (PyComp tree) (PyClasses clss'))).1 = Ok n'
    ∧ (run (tree_analysis.count (PyComp tree) PyNone)).1 = Ok nall
    ∧ n ≤ n' ≤ nall.
Proof.
  eexists _, _, _. rewrite !count_types_classes, count_None.
  repeat split.
  - apply matching_mono. intros comp (cls & Hin & Hcls)%existsb_exists.
    apply existsb_exists. exists cls. split; [|done].
    by apply list_elem_of_In, Hsub, list_elem_of_In.
  - rewrite <- matching_true. by apply matching_mono.
Qed.

Lemma count_types_monotone_witness :
  let tree := computation_test_utils.broadcasted_aggregate in
  ∃ n n' nall : Z,
    (run (tree_analysis.count_types (PyComp tree) (PyClasses [cls_Data]))).1 = Ok n
    ∧ (run (tree_analysis.count_types (PyComp tree)
              (PyClasses [cls_Intrinsic; cls_Data]))).1 = Ok n'
    ∧ (run (tree_analysis.count (PyComp tree) PyNone)).1 = Ok nall
    ∧ n ≤ n' ≤ nall.
Proof.
  apply count_types_monotone.
  intros cls Hcls. apply list_elem_of_In in Hcls as [<-|[]].
  apply list_elem_of_In. right. by left.
Defined.

(** X8. [count] only depends on what the predicate returns on the nodes of
    the tree: two predicates that agree on every node of the tree give the
    same count. *)
Theorem count_agrees_on_nodes (tree : ComputationBuildingBlock)
    (p q : ComputationBuildingBlock → bool)
    (Hagree : ∀ node, node ∈ postorder tree → p node = q node) :
  run (tree_analysis.count (PyComp tree) (py_predicate p))
  = run (tree_analysis.count (PyComp tree) (py_predicate q)).
Proof.
  rewrite !count_predicate. do 2 f_equal.
  by apply matching_ext, Forall_forall.
Qed.

Lemma count_agrees_on_nodes_witness :
  run (tree_analysis.count (PyComp computation_test_utils.broadcasted_aggregate)
         (py_predicate dependence.aggregate_predicate))
  = run (tree_analysis.count (PyComp computation_test_utils.broadcasted_aggregate)
           (py_predicate (λ comp, dependence.aggregate_predicate comp
                                  || has_identifier "federated_mean" comp))).
Proof.
  apply count_agrees_on_nodes. intros node Hnode.
  repeat (apply elem_of_cons in Hnode as [->|Hnode]; [by vm_compute|]).
  by apply elem_of_nil in Hnode.
Defined.

(** ** Further properties of the checkers *)

Section MoreCheckFacts.
Import tree_analysis.
Context (compact_representation : ComputationBuildingBlock → string)
        (placement_str : PlacementLiteral → string).

Lemma single_placement_passes_iff tree required :
  (run (check_has_single_placement compact_representation placement_str
          (PyComp tree) (PyPlacement required))).1 = Ok ()
  ↔ Forall (λ comp, has_other_placement required comp = false) (postorder tree).
Proof.
  rewrite check_has_single_placement_run.
  destruct (list_find _ (postorder tree)) as [[i node]|] eqn:Hfind; cbn [fst].
  - apply list_find_Some in Hfind as (Hi%list_elem_of_lookup_2 & Hbad & _).
    split; [done|]. rewrite Forall_forall. intros Hall.
    by rewrite (Hall node Hi) in Hbad.
  - apply list_find_None in Hfind. split; [intros _|done].
    eapply Forall_impl; [exact Hfind|]. intros comp Hne.
    by apply not_true_is_false.
Qed.

Lemma whitelist_passes_iff tree :
  (run (check_intrinsics_whitelisted_for_reduction compact_representation
          (PyComp tree))).1 = Ok ()
  ↔ Forall (λ comp, not_whitelisted comp = false) (postorder tree).
Proof.
  rewrite check_intrinsics_whitelisted_run.
  destruct (list_find _ (postorder tree)) as [[i node]|] eqn:Hfind; cbn [fst].
  - apply list_find_Some in Hfind as (Hi%list_elem_of_lookup_2 & Hbad & _).
    split; [done|]. rewrite Forall_forall. intros Hall.
    by rewrite (Hall node Hi) in Hbad.
  - apply list_find_None in Hfind. split; [intros _|done].
    eapply Forall_impl; [exact Hfind|]. intros comp Hne.
    by apply not_true_is_false.
Qed.

Lemma Forall_postorder_node_at (P : ComputationBuildingBlock → Prop) p tree sub :
  node_at p tree = Some sub →
  Forall P (postorder tree) → Forall P (postorder sub).
Proof.
  intros Hat. rewrite !Forall_forall. intros Hall n Hn.
  by eapply Hall, postorder_node_at.
Qed.
End MoreCheckFacts.

(** X9. [check_has_single_placement(tree, required)] returns normally exactly
    when [count] finds no node whose annotation is a federated type placed
    elsewhere than [required]. *)
Theorem single_placement_passes_iff_count_zero
    (compact_representation : ComputationBuildingBlock → string)
    (placement_str : PlacementLiteral → string)
    (tree : ComputationBuildingBlock) (required : PlacementLiteral) :
  (run (tree_analysis.check_has_single_placement compact_representation placement_str
          (PyComp tree) (PyPlacement required))).1 = Ok ()
  ↔ (run (tree_analysis.count (PyComp tree)
            (py_predicate (λ comp,
               match type_signature_of comp with
               | FederatedType _ placement => bool_decide (placement ≠ required)
               | _ => false
               end)))).1 = Ok 0.
Proof.
  rewrite single_placement_passes_iff.
  rewrite (count_zero_iff_no_match_aux tree (has_other_placement required)).
  done.
Qed.

(** X10. A tree in which [count_types] finds no Intrinsic node passes the
    whitelist check, after every node was visited. *)
Theorem no_intrinsic_passes_whitelist
    (compact_representation : ComputationBuildingBlock → string)
    (tree : ComputationBuildingBlock)
    (Hnone : (run (tree_analysis.count_types (PyComp tree)
                     (PyClass cls_Intrinsic))).1 = Ok 0) :
  run (tree_analysis.check_intrinsics_whitelisted_for_reduction
         compact_representation (PyComp tree))
  = (Ok (), postorder tree).
Proof.
  rewrite count_types_class in Hnone. cbn [fst] in Hnone.
  injection Hnone as Hnone. apply matching_zero in Hnone.
  rewrite check_intrinsics_whitelisted_run.
  destruct (list_find _ (postorder tree)) as [[i node]|] eqn:Hfind; [|done].
  apply list_find_Some in Hfind as (Hi%list_elem_of_lookup_2 & Hbad & _).
  rewrite Forall_forall in Hnone. specialize (Hnone node Hi).
  by destruct node.
Qed.

Lemma no_intrinsic_passes_whitelist_witness :
  let tree := Tuple [Data "data" int32; Reference "x" int32]
                    (NamedTupleType [int32; int32]) in
  run (tree_analysis.check_intrinsics_whitelisted_for_reduction
         (λ _, "comp") (PyComp tree))
  = (Ok (), postorder tree).
Proof. apply no_intrinsic_passes_whitelist. by vm_compute. Defined.

(** X11. [check_has_single_placement] is closed under subtrees: when it
    returns normally on a tree, it returns normally on every node of the
    tree taken as a tree of its own. *)
Theorem single_placement_passes_on_subtrees
    (compact_representation : ComputationBuildingBlock → string)
    (placement_str : PlacementLiteral → string)
    (tree sub : ComputationBuildingBlock) (p : path) (required : PlacementLiteral)
    (Hpass : (run (tree_analysis.check_has_single_placement
                     compact_representation placement_str
                     (PyComp tree) (PyPlacement required))).1 = Ok ())
    (Hsub : node_at p tree = Some sub) :
  run (tree_analysis.check_has_single_placement
         compact_representation placement_str
         (PyComp sub) (PyPlacement required))
  = (Ok (), postorder sub).
Proof.
  apply single_placement_passes_iff in Hpass.
  apply (Forall_postorder_node_at _ _ _ _ Hsub) in Hpass.
  apply (single_placement_passes_iff compact_representation placement_str) in Hpass.
  rewrite check_has_single_placement_run in *.
  by destruct (list_find _ (postorder sub)) as [[i node]|].
Qed.

Lemma single_placement_passes_on_subtrees_witness :
  let value := Data "data" (FederatedType int32 CLIENTS) in
  let tree := Tuple [Reference "x" int32; value]
                    (NamedTupleType [int32; FederatedType int32 CLIENTS]) in
  run (tree_analysis.check_has_single_placement (λ _, "comp") (λ _, "placement")
         (PyComp value) (PyPlacement CLIENTS))
  = (Ok (), postorder value).
Proof.
  intros value tree.
  apply (single_placement_passes_on_subtrees _ _ tree value [1%nat]);
    by vm_compute.
Defined.

(** X12. [check_intrinsics_whitelisted_for_reduction] is closed under
    subtrees: when it returns normally on a tree, it returns normally on
    every node of the tree taken as a tree of its own. *)
Theorem whitelist_passes_on_subtrees
    (compact_representation : ComputationBuildingBlock → string)
    (tree sub : ComputationBuildingBlock) (p : path)
    (Hpass : (run (tree_analysis.check_intrinsics_whitelisted_for_reduction
                     compact_representation (PyComp tree))).1 = Ok ())
    (Hsub : node_at p tree = Some sub) :
  run (tree_analysis.check_intrinsics_whitelisted_for_reduction
         compact_representation (PyComp sub))
  = (Ok (), postorder sub).
Proof.
  apply whitelist_passes_iff in Hpass.
  apply (Forall_postorder_node_at _ _ _ _ Hsub) in Hpass.
  apply (whitelist_passes_iff compact_representation) in Hpass.
  rewrite check_intrinsics_whitelisted_run in *.
  by destruct (list_find _ (postorder sub)) as [[i node]|].
Qed.

Lemma whitelist_passes_on_subtrees_witness :
  let sub := computation_test_utils.create_dummy_called_federated_aggregate
               "accumulate_parameter" "merge_parameter" "report_parameter" in
  run (tree_analysis.check_intrinsics_whitelisted_for_reduction
         (λ _, "comp") (PyComp sub))
  = (Ok (), postorder sub).
Proof.
  intros sub.
  apply (whitelist_passes_on_subtrees
           _ computation_test_utils.broadcasted_aggregate sub [1%nat]);
    by vm_compute.
Defined.

(** X13. A tree passes [check_has_single_placement] for two different
    placements exactly when none of its nodes has a federated type. *)
Theorem two_placements_pass_iff_no_federated_type
    (compact_representation : ComputationBuildingBlock → string)
    (placement_str : PlacementLiteral → string)
    (tree : ComputationBuildingBlock) (p q : PlacementLiteral)
    (Hpq : p ≠ q) :
  ((run (tree_analysis.check_has_single_placement
           compact_representation placement_str
           (PyComp tree) (PyPlacement p))).1 = Ok ()
   ∧ (run (tree_analysis.check_has_single_placement
             compact_representation placement_str
             (PyComp tree) (PyPlacement q))).1 = Ok ())
  ↔ ∀ node member placement,
      node ∈ postorder tree →
      type_signature_of node ≠ FederatedType member placement.
Proof.
  rewrite !single_placement_passes_iff, !Forall_forall. split.
  - intros [Hp Hq] node member placement Hin Hty.
    specialize (Hp node Hin). specialize (Hq node Hin).
    unfold has_other_placement in Hp, Hq. rewrite Hty in Hp, Hq.
    apply bool_decide_eq_false in Hp, Hq.
    apply dec_stable in Hp, Hq. congruence.
  - intros Hnone. split; intros node Hin; unfold has_other_placement;
      specialize (Hnone node);
      destruct (type_signature_of node) as [| | |member placement]; try done;
      by destruct (Hnone member placement Hin).
Qed.

Lemma two_placements_pass_iff_no_federated_type_witness :
  let tree := Call (Lambda "x" int32 (Reference "x" int32) (FunctionType int32 int32))
                   (Data "data" int32) int32 in
  ((run (tree_analysis.check_has_single_placement (λ _, "comp") (λ _, "placement")
           (PyComp tree) (PyPlacement CLIENTS))).1 = Ok ()
   ∧ (run (tree_analysis.check_has_single_placement (λ _, "comp") (λ _, "placement")
             (PyComp tree) (PyPlacement SERVER))).1 = Ok ())
  ↔ ∀ node member placement,
      node ∈ postorder tree →
      type_signature_of node ≠ FederatedType member placement.
Proof. by apply two_placements_pass_iff_no_federated_type. Defined.
